(** * The article extraction core of [newspaper/proxy_scraper.py]

    A shallow embedding of [get_constant] and of the class
    [ProxyScraper]: [extract_article] with its local [clean_text],
    [clean_input_text], [remove_overlays_and_clean_content] and the two
    fetchers, with the theorems that relate them to the specification
    and further properties of the code.

    Text is a list of characters.  A character is a code point below 256
    (type [ascii]); Python's [str.isspace] and the [\s] class of [re]
    agree on that range, and the only characters that match an ASCII
    letter case-insensitively there are the letter's two cases. *)

From Stdlib Require Import List String Ascii Bool Arith PeanoNat Lia.
Import ListNotations.

Set Implicit Arguments.
Set Warnings "-register-all".

(** ** Text and the regular expressions of [clean_text] *)

Module Text.

Definition text := list ascii.

Definition T (s : string) : text := list_ascii_of_string s.

Definition code (c : ascii) : nat := nat_of_ascii c.

(** [str.isspace] on one character: TAB, LF, VT, FF, CR, the separators
    0x1c-0x1f, the space, NEL (0x85) and NBSP (0xa0). *)
Definition is_space (c : ascii) : bool :=
  let n := code c in
  ((9 <=? n) && (n <=? 13)) || ((28 <=? n) && (n <=? 32))
  || (n =? 133) || (n =? 160).

Definition nl : ascii := ascii_of_nat 10.
Definition sp : ascii := ascii_of_nat 32.

Definition is_nl (c : ascii) : bool := Ascii.eqb c nl.

(** [str.lower] on one character, as far as matching an ASCII pattern
    under [re.I] is concerned. *)
Definition lower (c : ascii) : ascii :=
  let n := code c in
  if (65 <=? n) && (n <=? 90) then ascii_of_nat (n + 32) else c.

(** [str.strip()] *)
Fixpoint lstrip (s : text) : text :=
  match s with
  | c :: r => if is_space c then lstrip r else s
  | [] => []
  end.

Definition rstrip (s : text) : text := rev (lstrip (rev s)).

Definition strip (s : text) : text := rstrip (lstrip s).

(** [re.sub(pattern, repl, s)] for a pattern that never matches the empty
    string.  [match_at s] is the length of the match of the pattern
    anchored at the head of [s], if there is one.  The scan goes left to
    right; a match is replaced and the scan resumes right after it, so
    matches do not overlap; a character at which nothing matches is
    copied. *)
Section ReSub.

Variable match_at : text -> option nat.
Variable repl : text.

Fixpoint sub_from (skip : nat) (s : text) : text :=
  match s with
  | [] => []
  | c :: r =>
      match skip with
      | S k => sub_from k r
      | 0 =>
          match match_at s with
          | Some (S n) => repl ++ sub_from n r
          | _ => c :: sub_from 0 r
          end
      end
  end.

Definition re_sub (s : text) : text := sub_from 0 s.

End ReSub.

(** The tail of [\n\s*\n] after its first newline: [\s*] is greedy and
    backtracks, so the match ends at the last newline of the whitespace
    run; the result is the number of characters up to and including that
    newline. *)
Fixpoint ws_to_last_nl (r : text) : option nat :=
  match r with
  | c :: r' =>
      if is_space c then
        match ws_to_last_nl r' with
        | Some k => Some (S k)
        | None => if is_nl c then Some 1 else None
        end
      else None
  | [] => None
  end.

(** [\n\s*\n] *)
Definition match_blank (s : text) : option nat :=
  match s with
  | c :: r =>
      if is_nl c then
        match ws_to_last_nl r with
        | Some k => Some (S k)
        | None => None
        end
      else None
  | [] => None
  end.

Fixpoint span_ws (s : text) : nat :=
  match s with
  | c :: r => if is_space c then S (span_ws r) else 0
  | [] => 0
  end.

(** [\s+] *)
Definition match_ws (s : text) : option nat :=
  match span_ws s with
  | 0 => None
  | n => Some n
  end.

(** A literal pattern [p] matched under [re.I] at the head of [s]. *)
Fixpoint prefix_ci (p s : text) : bool :=
  match p, s with
  | [], _ => true
  | _ :: _, [] => false
  | a :: p', c :: s' => Ascii.eqb (lower c) (lower a) && prefix_ci p' s'
  end.

(** [re.compile(p, re.I).search(s)] for a literal pattern [p]. *)
Fixpoint search_ci (p s : text) : bool :=
  prefix_ci p s ||
  match s with
  | [] => false
  | _ :: r => search_ci p r
  end.

(** [p in s] for strings. *)
Fixpoint prefix (p s : text) : bool :=
  match p, s with
  | [], _ => true
  | _ :: _, [] => false
  | a :: p', c :: s' => Ascii.eqb c a && prefix p' s'
  end.

Fixpoint contains (p s : text) : bool :=
  prefix p s ||
  match s with
  | [] => false
  | _ :: r => contains p r
  end.

Definition phrases : list text :=
  [T "continue reading"; T "read more"; T "more for you"; T "advertisement"].

Fixpoint first_phrase (ps : list text) (s : text) : option nat :=
  match ps with
  | [] => None
  | p :: ps' => if prefix_ci p s then Some (List.length p) else first_phrase ps' s
  end.

(** [(?i)continue reading|read more|more for you|advertisement]: the
    alternatives are tried in order at each position. *)
Definition match_phrase (s : text) : option nat := first_phrase phrases s.

(** [clean_text], lines 82-88. *)
Definition clean_text (t : text) : text :=
  match t with
  | [] => []
  | _ =>
      let t1 := re_sub match_blank (T (String nl (String nl EmptyString))) t in
      let t2 := re_sub match_ws [sp] t1 in
      let t3 := re_sub match_phrase [] t2 in
      strip t3
  end.

End Text.

Import Text.

Definition LF : string := String nl EmptyString.

(** ** The document tree

    What [BeautifulSoup(html, 'html.parser')] builds, as far as this
    program looks at it: strings and elements with a tag, attributes and
    children.  Tag and attribute names are in lower case, as the parser
    leaves them.  The soup object itself is the root element, with tag
    [[document]].

    The strings are of two sorts.  [Text] is a string of the page
    ([NavigableString], [CData]); [Comment] is one of the strings that
    are no text of the page ([Comment], [Doctype], [Declaration],
    [ProcessingInstruction]): [find_all(string=...)] sees both sorts,
    [get_text()] never yields the second.

    A Python reference to a node is the path to it from the root.
    [decompose()] leaves the mark [Gone] in the place of the subtree, so
    that the paths of the other nodes stay what they were: a path that
    runs into [Gone] is a reference to a destroyed object. *)

Module Dom.

Inductive node : Type :=
| Text (s : string)
| Comment (s : string)
| Elem (tag : string) (attrs : list (string * string)) (kids : list node)
| Gone.

Definition path := list nat.

Definition soup_tag : string := "[document]".

Definition is_elem (n : node) : bool :=
  match n with Elem _ _ _ => true | _ => false end.

(** [isinstance(n, NavigableString)] *)
Definition is_text (n : node) : bool :=
  match n with Text _ | Comment _ => true | _ => false end.

(** [tag.name] *)
Definition name (n : node) : string :=
  match n with Elem t _ _ => t | _ => EmptyString end.

(** [tag.get(k)] *)
Fixpoint assoc (k : string) (l : list (string * string)) : option string :=
  match l with
  | [] => None
  | (k', v) :: l' => if String.eqb k k' then Some v else assoc k l'
  end.

Definition attr (k : string) (n : node) : option string :=
  match n with Elem _ a _ => assoc k a | _ => None end.

(** The values of a [class] attribute: [\S+] found in its text. *)
Fixpoint words_from (cur : text) (s : text) : list text :=
  match s with
  | [] => match cur with [] => [] | _ => [rev cur] end
  | c :: r =>
      if is_space c then
        match cur with
        | [] => words_from [] r
        | _ => rev cur :: words_from [] r
        end
      else words_from (c :: cur) r
  end.

Definition words (s : text) : list text := words_from [] s.

Definition classes (n : node) : option (list text) :=
  match attr "class" n with
  | Some v => Some (words (T v))
  | None => None
  end.

(** *** The text of an element

    The parser gives a string a class of its own when it stands inside
    one of these elements, however deep ([Script], [Stylesheet],
    [TemplateString], [RubyTextString], [RubyParenthesisString]: the
    table [DEFAULT_STRING_CONTAINERS] of the tree builder); the innermost
    such element decides.  [None] is the class of the plain strings. *)
Definition string_containers : list string :=
  ["rt"; "rp"; "style"; "script"; "template"]%string.

Definition is_container (t : string) : bool :=
  existsb (String.eqb t) string_containers.

(** The class of the strings inside an element with tag [t] that itself
    stands where the class is [encl]. *)
Definition enter (encl : option string) (t : string) : option string :=
  if is_container t then Some t else encl.

Definition same_class (a b : option string) : bool :=
  match a, b with
  | None, None => true
  | Some x, Some y => String.eqb x y
  | _, _ => false
  end.

(** The strings of class [want] in the subtree of [n], in document
    order, joined; [encl] is the class of a string in the place of
    [n]. *)
Fixpoint strings_of (want encl : option string) (n : node) : text :=
  match n with
  | Text s => if same_class want encl then T s else []
  | Comment _ => []
  | Elem t _ ks => List.concat (map (strings_of want (enter encl t)) ks)
  | Gone => []
  end.

(** The class of strings an element yields
    ([tag.interesting_string_types]): its own when it is one of the
    elements above, the plain strings otherwise. *)
Definition interesting (t : string) : option string :=
  if is_container t then Some t else None.

(** [tag.get_text()], for an element [n] that stands where the class of
    a string is [encl]: the strings of the subtree that are of the class
    the element yields.  So the text of a [div] leaves out what its
    [script], [style] and [template] descendants hold, and every
    comment. *)
Definition get_text (encl : option string) (n : node) : text :=
  match n with
  | Elem t _ _ => strings_of (interesting t) encl n
  | _ => []
  end.

(** The object a reference points to; [None] once it is destroyed. *)
Fixpoint get (p : path) (n : node) : option node :=
  match p with
  | [] => match n with Gone => None | _ => Some n end
  | i :: p' =>
      match n with
      | Elem _ _ ks =>
          match nth_error ks i with
          | Some k => get p' k
          | None => None
          end
      | _ => None
      end
  end.

Fixpoint update (i : nat) (f : node -> node) (ks : list node) : list node :=
  match ks with
  | [] => []
  | k :: ks' =>
      match i with
      | 0 => f k :: ks'
      | S j => k :: update j f ks'
      end
  end.

(** [tag.decompose()], on the root [n] of the tree, for the object at
    [p].  On an object that was destroyed before, it does nothing. *)
Fixpoint decompose (p : path) (n : node) : node :=
  match p with
  | [] => Gone
  | i :: p' =>
      match n with
      | Elem t a ks => Elem t a (update i (decompose p') ks)
      | _ => n
      end
  end.

(** The subtree of [n] in document order: [n] itself, then its
    descendants, each with its path from [n]. *)
Fixpoint nodes (n : node) : list (path * node) :=
  match n with
  | Gone => []
  | Text _ => [([], n)]
  | Comment _ => [([], n)]
  | Elem _ _ ks =>
      ([], n) ::
      (fix go (i : nat) (l : list node) : list (path * node) :=
         match l with
         | [] => []
         | k :: l' =>
             map (fun pn => (i :: fst pn, snd pn)) (nodes k) ++ go (S i) l'
         end) 0 ks
  end.

(** [tag.descendants] *)
Definition descendants (n : node) : list (path * node) := tl (nodes n).

(** [tag.parent], for a reference that is not the root. *)
Definition parent (p : path) : path := removelast p.

(** The ancestors of the object at [p], the nearest first. *)
Fixpoint ancestors_down (p : path) (n : node) : list node :=
  match p with
  | [] => []
  | i :: p' =>
      match n with
      | Elem _ _ ks =>
          match nth_error ks i with
          | Some k => n :: ancestors_down p' k
          | None => []
          end
      | _ => []
      end
  end.

Definition ancestors (p : path) (root : node) : list node :=
  rev (ancestors_down p root).

(** *** CSS selectors, as far as the program uses them *)

Inductive simple : Type :=
| STag (t : string)
| SClass (c : string)
| SId (i : string)
| SAttr (k v : string).

(** A selector is a chain of simple selectors under the descendant
    combinator: [[STag "main"; SClass "article"]] is [main .article]. *)
Definition selector := list simple.

Definition text_eqb (a b : text) : bool :=
  if list_eq_dec ascii_dec a b then true else false.

Definition matches_simple (s : simple) (n : node) : bool :=
  is_elem n &&
  match s with
  | STag t => String.eqb (name n) t
  | SClass c =>
      match classes n with
      | Some cs => existsb (text_eqb (T c)) cs
      | None => false
      end
  | SId i =>
      match attr "id" n with
      | Some v => String.eqb v i
      | None => false
      end
  | SAttr k v =>
      match attr k n with
      | Some w => String.eqb w v
      | None => false
      end
  end.

(** The ancestors above the nearest one that matches [s]. *)
Fixpoint above_match (s : simple) (anc : list node) : option (list node) :=
  match anc with
  | [] => None
  | a :: anc' => if matches_simple s a then Some anc' else above_match s anc'
  end.

(** [rsel] is the chain from the innermost simple selector outwards. *)
Fixpoint matches_up (rsel : list simple) (anc : list node) : bool :=
  match rsel with
  | [] => true
  | s :: rsel' =>
      match above_match s anc with
      | Some anc' => matches_up rsel' anc'
      | None => false
      end
  end.

Definition matches (sel : selector) (anc : list node) (n : node) : bool :=
  match rev sel with
  | [] => false
  | s :: rsel => matches_simple s n && matches_up rsel anc
  end.

(** [soup.select(sel)]: references to the matching elements, in document
    order. *)
Definition select (sel : selector) (root : node) : list path :=
  map fst
    (filter (fun pn => matches sel (ancestors (fst pn) root) (snd pn))
       (descendants root)).

(** [soup.select_one(sel)] *)
Definition select_one (sel : selector) (root : node) : option path :=
  hd_error (select sel root).

(** [tag.find_all(pred)] below the object at [p]: references, from the
    root, to the descendants that satisfy [pred].  A destroyed object has
    no descendants. *)
Definition find_all (pred : node -> bool) (p : path) (root : node) : list path :=
  match get p root with
  | Some n =>
      map (fun pn => p ++ fst pn)
        (filter (fun pn => pred (snd pn)) (descendants n))
  | None => []
  end.

(** The class of a string in the place of the object at [p]: what the
    innermost of its ancestors among the elements of
    [string_containers] decides. *)
Fixpoint encl_down (encl : option string) (p : path) (n : node)
  : option string :=
  match p with
  | [] => encl
  | i :: p' =>
      match n with
      | Elem t _ ks =>
          match nth_error ks i with
          | Some k => encl_down (enter encl t) p' k
          | None => encl
          end
      | _ => encl
      end
  end.

Definition encl_at (p : path) (root : node) : option string :=
  encl_down None p root.

(** [tag.get_text()] through a reference; a destroyed object has no
    text. *)
Definition text_at (p : path) (root : node) : text :=
  match get p root with
  | Some n => get_text (encl_at p root) n
  | None => []
  end.

End Dom.

Import Dom.

(** ** Exceptions

    A computation returns a value or raises an exception, of which the
    program only ever reads the message ([str(e)]). *)

Inductive res (A : Type) : Type :=
| Ok (a : A)
| Raise (msg : string).

Arguments Ok {A} a.
Arguments Raise {A} msg.

Definition bind {A B : Type} (m : res A) (f : A -> res B) : res B :=
  match m with
  | Ok a => f a
  | Raise e => Raise e
  end.

Notation "x <- m ;; f" := (bind m (fun x => f))
  (at level 61, m at next level, right associativity).

(** ** The selector engine

    [soup.select] and [soup.select_one] run the selector engine, which
    is a library of its own and may raise.  [raises sel d] is the message
    of the exception it raises on the query [sel] over the soup [d], if
    it raises there; otherwise the query answers as [select] says. *)

Definition engine : Type := selector -> node -> option string.

Definition select_r (raises : engine) (sel : selector) (d : node)
    : res (list path) :=
  match raises sel d with
  | Some e => Raise e
  | None => Ok (select sel d)
  end.

Definition select_one_r (raises : engine) (sel : selector) (d : node)
    : res (option path) :=
  match raises sel d with
  | Some e => Raise e
  | None => Ok (select_one sel d)
  end.

(** The engine that answers every query. *)
Definition quiet : engine := fun _ _ => None.

(** ** The Noise Stripper: [remove_overlays_and_clean_content] *)

Module Noise.

Definition ids : list string :=
  [ "continue-reading"; "read-more"; "moreButton"; "more-content";
    "below-article"; "bottom-article"; "mid-article"; "article-interruption";
    "ad-insertion"; "advertisement"; "sponsored-content"; "taboola";
    "outbrain"; "related-articles"; "suggested-content"; "newsletter-signup";
    "subscription-prompt"; "more-for-you"; "trending-stories" ]%string.

Definition class_patterns : list string :=
  [ "continue-reading"; "read-more-button"; "article-break";
    "article-interstitial"; "ad-break"; "sponsored-content";
    "newsletter-unit"; "subscription-unit"; "paywall-container";
    "below-article-content"; "article-interruption"; "story-interrupt";
    "mid-article-unit"; "article-divide"; "more-for-you";
    "content-separation"; "story-break"; "loading-block" ]%string.

Definition text_patterns : list string :=
  [ "continue reading"; "read more"; "more for you"; "sponsored content";
    "advertisement"; "recommended"; "popular stories"; "trending now";
    "you might like"; "more stories"; "more articles"; "keep reading";
    "load more" ]%string.

(** [" ".join(values)] *)
Fixpoint join (sep : text) (l : list text) : text :=
  match l with
  | [] => []
  | [x] => x
  | x :: r => x ++ sep ++ join sep r
  end.

(** [find_all(id=re.compile(pattern, re.I))] keeps an element whose [id]
    the pattern is found in. *)
Definition id_matches (pat : string) (n : node) : bool :=
  is_elem n &&
  match attr "id" n with
  | Some v => search_ci (T pat) (T v)
  | None => false
  end.

(** [find_all(class_=re.compile(pattern, re.I))] keeps an element one of
    whose classes the pattern is found in, or else the classes joined by
    spaces. *)
Definition class_matches (pat : string) (n : node) : bool :=
  is_elem n &&
  match classes n with
  | Some cs => existsb (search_ci (T pat)) cs || search_ci (T pat) (join [sp] cs)
  | None => false
  end.

(** [find_all(string=re.compile(pattern, re.I))] keeps a string the
    pattern is found in, of whatever class: a comment too. *)
Definition text_matches (pat : string) (n : node) : bool :=
  match n with
  | Text s => search_ci (T pat) (T s)
  | Comment s => search_ci (T pat) (T s)
  | _ => false
  end.

Definition decompose_all (ps : list path) (d : node) : node :=
  fold_left (fun d' p => decompose p d') ps d.

(** Lines 226-228 and 230-232: for each pattern, the matches are listed,
    then destroyed one by one. *)
Definition strip_by (pred : string -> node -> bool) (pats : list string)
    (d : node) : node :=
  fold_left (fun d' pat => decompose_all (find_all (pred pat) [] d') d') pats d.

Definition walk_tags : list string := ["button"; "a"; "div"; "section"]%string.

(** The test of line 238 on the element [n], which stands where the
    class of a string is [encl]. *)
Definition walk_cond (encl : option string) (n : node) : bool :=
  existsb (String.eqb (name n)) walk_tags &&
  (List.length (get_text encl n) <? 1000).

(** The [while] loop of lines 238-241.  [rp] is the reference held by
    [parent], written from the node up to the root; [tl rp] is then
    [parent.parent], and the root has no parent. *)
Fixpoint walk_up (rp : list nat) (d : node) : node :=
  match get (rev rp) d with
  | Some n =>
      if walk_cond (encl_at (rev rp) d) n then
        match rp with
        | [] => decompose [] d
        | _ :: rp' => walk_up rp' (decompose (rev rp) d)
        end
      else d
  | None => d
  end.

Definition attribute_error : string :=
  "'NavigableString' object has no attribute 'parent'".

(** Lines 236-241.  [element.parent] on a string that an earlier walk
    destroyed raises [AttributeError]: [decompose] empties the dictionary
    of every object below the one it destroys. *)
Fixpoint walk_elements (els : list path) (d : node) : res node :=
  match els with
  | [] => Ok d
  | e :: els' =>
      match get e d with
      | None => Raise attribute_error
      | Some _ => walk_elements els' (walk_up (rev (parent e)) d)
      end
  end.

(** Lines 234-241. *)
Fixpoint text_pass (pats : list string) (d : node) : res node :=
  match pats with
  | [] => Ok d
  | pat :: pats' =>
      d' <- walk_elements (find_all (text_matches pat) [] d) d ;;
      text_pass pats' d'
  end.

(** The three passes on the parsed document. *)
Definition strip_noise (d : node) : res node :=
  text_pass text_patterns (strip_by class_matches class_patterns (strip_by id_matches ids d)).

End Noise.

(** ** The Content Locator: lines 61-107 *)

Module Locator.

Definition content_selectors : list selector :=
  [ [STag "article"];
    [SAttr "itemprop" "articleBody"];
    [SClass "article-content"];
    [SClass "article-body"];
    [SClass "story-content"];
    [SClass "post-content"];
    [STag "main"; STag "article"];
    [STag "main"; SClass "article"];
    [SClass "main-content"; STag "article"];
    [SClass "content-area"; STag "article"];
    [SClass "entry-content"];
    [SClass "post-body"];
    [SClass "story-body"];
    [SAttr "role" "main"];
    [SClass "caas-body"];
    [STag "main"];
    [SId "main-content"];
    [SClass "main-content"] ].

Definition unwanted : list string :=
  ["script"; "style"; "iframe"; "noscript"; "form"]%string.

Definition is_unwanted (n : node) : bool :=
  is_elem n && existsb (String.eqb (name n)) unwanted.

Definition nonempty (t : text) : bool :=
  match t with [] => false | _ => true end.

(** [text and len(text) > 100] *)
Definition accepted (t : text) : bool := nonempty t && (100 <? List.length t).

(** The state of the loops: the soup, [full_content], [found_content]. *)
Definition state : Type := node * list text * bool.

(** Lines 97-98, then line 100: the block of one matched element. *)
Definition strip_unwanted (c : path) (d : node) : node :=
  Noise.decompose_all (find_all is_unwanted c d) d.

Definition block (c : path) (d : node) : text :=
  clean_text (text_at c (strip_unwanted c d)).

(** Lines 96-104. *)
Fixpoint scan_contents (cs : list path) (st : state) : state :=
  match cs with
  | [] => st
  | c :: cs' =>
      let '(d, full, found) := st in
      let d1 := strip_unwanted c d in
      let text := clean_text (text_at c d1) in
      if accepted text
      then scan_contents cs' (d1, full ++ [text], true)
      else scan_contents cs' (d1, full, found)
  end.

(** Lines 93-107, when the selector engine answers every query. *)
Fixpoint cascade (sels : list selector) (st : state) : state :=
  match sels with
  | [] => st
  | sel :: sels' =>
      let '(d, _, _) := st in
      let st1 := scan_contents (select sel d) st in
      let '(_, _, found1) := st1 in
      if found1 then st1 else cascade sels' st1
  end.

Definition locate (d : node) : state :=
  cascade content_selectors (d, [], false).

(** Lines 93-107 as they run: an exception of [soup.select] ends the
    loop. *)
Fixpoint cascade_r (raises : engine) (sels : list selector) (st : state)
    : res state :=
  match sels with
  | [] => Ok st
  | sel :: sels' =>
      let '(d, _, _) := st in
      contents <- select_r raises sel d ;;
      let st1 := scan_contents contents st in
      let '(_, _, found1) := st1 in
      if found1 then Ok st1 else cascade_r raises sels' st1
  end.

Definition locate_r (raises : engine) (d : node) : res state :=
  cascade_r raises content_selectors (d, [], false).

End Locator.

(** ** Metadata Recovery: lines 125-169 *)

Module Meta.

Definition title_selectors : list selector :=
  [ [SAttr "itemprop" "headline"]; [SClass "article-title"];
    [SClass "entry-title"]; [SClass "post-title"]; [SClass "story-title"] ].

Definition date_selectors : list selector :=
  [ [SAttr "itemprop" "datePublished"]; [SClass "article-date"];
    [SClass "post-date"]; [SClass "published-date"]; [STag "time"] ].

Definition author_selectors : list selector :=
  [ [SAttr "itemprop" "author"]; [SClass "article-author"];
    [SClass "post-author"]; [SClass "author-name"]; [SClass "byline"] ].

(** [soup.find(t)] *)
Definition find_tag (t : string) (d : node) : option path :=
  hd_error (find_all (fun n => is_elem n && String.eqb (name n) t) [] d).

(** [elem.get_text().strip()] *)
Definition stripped_text (p : path) (d : node) : text := strip (text_at p d).

(** [not title], for [None] and for the empty string. *)
Definition falsy (o : option text) : bool :=
  match o with
  | None => true
  | Some [] => true
  | Some (_ :: _) => false
  end.

(** Lines 125-126. *)
Definition h1_title (d : node) : option text :=
  match find_tag "h1" d with
  | Some p => Some (stripped_text p d)
  | None => None
  end.

(** Lines 136-140: the loop stops at the first selector that matches. *)
Fixpoint title_loop (sels : list selector) (d : node) (title : option text)
    : option text :=
  match sels with
  | [] => title
  | sel :: sels' =>
      match select_one sel d with
      | Some p => Some (stripped_text p d)
      | None => title_loop sels' d title
      end
  end.

(** Lines 125-140. *)
Definition recover_title (d : node) : option text :=
  let title := h1_title d in
  if falsy title then title_loop title_selectors d title else title.

(** Lines 150-154: [date_elem.get('datetime', date_elem.get_text().strip())] *)
Fixpoint date_loop (sels : list selector) (d : node) : option text :=
  match sels with
  | [] => None
  | sel :: sels' =>
      match select_one sel d with
      | Some p =>
          match get p d with
          | Some n =>
              match attr "datetime" n with
              | Some v => Some (T v)
              | None => Some (stripped_text p d)
              end
          | None => Some (stripped_text p d)
          end
      | None => date_loop sels' d
      end
  end.

Definition recover_date (d : node) : option text := date_loop date_selectors d.

(** [author not in authors] *)
Definition mem (a : text) (l : list text) : bool := existsb (text_eqb a) l.

(** Lines 166-169. *)
Fixpoint add_authors (elems : list path) (d : node) (authors : list text)
    : list text :=
  match elems with
  | [] => authors
  | e :: elems' =>
      let author := stripped_text e d in
      if Locator.nonempty author && negb (mem author authors)
      then add_authors elems' d (authors ++ [author])
      else add_authors elems' d authors
  end.

(** Lines 164-169. *)
Fixpoint authors_loop (sels : list selector) (d : node) (authors : list text)
    : list text :=
  match sels with
  | [] => authors
  | sel :: sels' => authors_loop sels' d (add_authors (select sel d) d authors)
  end.

Definition recover_authors (d : node) : list text :=
  authors_loop author_selectors d [].

(** The same loops as they run: an exception of [soup.select_one] or
    [soup.select] ends them. *)
Fixpoint title_loop_r (raises : engine) (sels : list selector) (d : node)
    (title : option text) : res (option text) :=
  match sels with
  | [] => Ok title
  | sel :: sels' =>
      title_elem <- select_one_r raises sel d ;;
      match title_elem with
      | Some p => Ok (Some (stripped_text p d))
      | None => title_loop_r raises sels' d title
      end
  end.

Definition recover_title_r (raises : engine) (d : node) : res (option text) :=
  let title := h1_title d in
  if falsy title then title_loop_r raises title_selectors d title
  else Ok title.

Fixpoint date_loop_r (raises : engine) (sels : list selector) (d : node)
    : res (option text) :=
  match sels with
  | [] => Ok None
  | sel :: sels' =>
      date_elem <- select_one_r raises sel d ;;
      match date_elem with
      | Some p =>
          match get p d with
          | Some n =>
              match attr "datetime" n with
              | Some v => Ok (Some (T v))
              | None => Ok (Some (stripped_text p d))
              end
          | None => Ok (Some (stripped_text p d))
          end
      | None => date_loop_r raises sels' d
      end
  end.

Definition recover_date_r (raises : engine) (d : node) : res (option text) :=
  date_loop_r raises date_selectors d.

Fixpoint authors_loop_r (raises : engine) (sels : list selector) (d : node)
    (authors : list text) : res (list text) :=
  match sels with
  | [] => Ok authors
  | sel :: sels' =>
      author_elems <- select_r raises sel d ;;
      authors_loop_r raises sels' d (add_authors author_elems d authors)
  end.

Definition recover_authors_r (raises : engine) (d : node) : res (list text) :=
  authors_loop_r raises author_selectors d [].

(** Lines 125-169: the title, the date, the authors, in this order. *)
Definition recover_r (raises : engine) (d : node)
    : res (option text * option text * list text) :=
  title <- recover_title_r raises d ;;
  date <- recover_date_r raises d ;;
  authors <- recover_authors_r raises d ;;
  Ok (title, date, authors).

End Meta.

(** ** The Orchestrator: [extract_article] and the two fetchers *)

(** The result record: the six fields of lines 171-178, or [url] and
    [error]. *)
Inductive result : Type :=
| Success (url : string) (title : option text) (text' : text)
    (authors : list text) (publish_date : option text) (method : string)
| Failure (url : string) (error : string).

(** What the program calls and does not define: the markup parser and
    its printer ([BeautifulSoup(html, 'html.parser')], [str(soup)]), the
    selector engine, the two HTTP requests, and the generic extractor
    ([Article.download(input_html=...)], [Article.parse()],
    [Article.text]).  Each of them returns or raises; a request gives the
    field the fetcher reads from the reply. *)
Record collaborators : Type := {
  parse : text -> res node;
  render : node -> res text;
  select_raises : engine;
  zyte_browser_html : string -> res (option text);
  zyte_response_body : string -> res text;
  oxylabs_query : string -> res (nat * res (option text));
  article_text : string -> string -> text -> res text
}.

Section Orchestrator.

Variable C : collaborators.

(** Line 185. *)
Definition clean_input_text (t : option text) : text :=
  match t with
  | None => []
  | Some [] => []
  | Some s => strip s
  end.

(** Lines 187-243.  The argument is [None] when the reply held no
    markup. *)
Definition remove_overlays_and_clean_content (html_content : option text)
    : res (option text) :=
  match html_content with
  | None => Ok None
  | Some [] => Ok (Some [])
  | Some html =>
      soup <- parse C html ;;
      d <- Noise.strip_noise soup ;;
      s <- render C d ;;
      Ok (Some s)
  end.

(** A fetcher swallows every exception and returns [None]. *)
Definition swallow {A : Type} (m : res (option A)) : option A :=
  match m with
  | Ok r => r
  | Raise _ => None
  end.

(** Lines 247-248. *)
Definition with_scheme (url : string) : string :=
  if negb (contains (T "http://") (T url)) && negb (contains (T "https://") (T url))
  then ("https://" ++ url)%string
  else url.

(** Lines 245-277. *)
Definition f_oxylabs_proxy (url : string) : option text :=
  swallow
    (reply <- oxylabs_query C (with_scheme url) ;;
     let '(status_code, content) := reply in
     if negb (status_code =? 200) then Ok None
     else
       c <- content ;;
       remove_overlays_and_clean_content c).

(** Lines 279-316.  Any other [req_type] falls off the end of the
    function. *)
Definition f_zyte_proxy (url : string) (req_type : string) : option text :=
  swallow
    (if String.eqb req_type "get" then
       html_content <- zyte_browser_html C url ;;
       remove_overlays_and_clean_content html_content
     else if String.eqb req_type "post" then
       body <- zyte_response_body C url ;;
       Ok (Some body)
     else Ok None).

(** Lines 46-51. *)
Definition fetch (url use_proxy : string) : res (option text) :=
  if String.eqb use_proxy "oxylabs" then Ok (f_oxylabs_proxy url)
  else if String.eqb use_proxy "zyte" then Ok (f_zyte_proxy url "get")
  else Raise ("Invalid proxy provider: " ++ use_proxy)%string.

(** Lines 109-117. *)
Definition fallback (url language : string) (cleaned_html : text)
    (full_content : list text) (found_content : bool) : res (list text) :=
  if found_content then Ok full_content
  else
    article <- article_text C url language cleaned_html ;;
    if Locator.nonempty article then
      let text := clean_text article in
      if Locator.nonempty text then Ok (full_content ++ [text])
      else Ok full_content
    else Ok full_content.

Definition para : text := [nl; nl].

(** The body of the [try], lines 44-178. *)
Definition extract_body (url use_proxy language : string) : res result :=
  response <- fetch url use_proxy ;;
  if Meta.falsy response then Ok (Failure url "No response from proxy")
  else
    let response := clean_input_text response in
    cleaned <- remove_overlays_and_clean_content (Some response) ;;
    match cleaned with
    | None => Raise "object of type 'NoneType' has no len()"
    | Some cleaned_html =>
        soup <- parse C cleaned_html ;;
        st <- Locator.locate_r (select_raises C) soup ;;
        let '(soup1, full_content, found_content) := st in
        full_content <- fallback url language cleaned_html full_content found_content ;;
        match full_content with
        | [] => Ok (Failure url "No content found")
        | _ =>
            let final_text := clean_text (Noise.join para full_content) in
            meta <- Meta.recover_r (select_raises C) soup1 ;;
            let '(title, date, authors) := meta in
            Ok (Success url title final_text authors date use_proxy)
        end
    end.

(** Lines 42-182: the [except] clause turns an exception into a record. *)
Definition extract_article (url use_proxy language : string) : result :=
  match extract_body url use_proxy language with
  | Ok r => r
  | Raise e => Failure url e
  end.

End Orchestrator.

(** ** Predicates of the statements *)

(** A whitespace character of the output of the [\s+] pass is a space. *)
Definition only_sp (c : ascii) : Prop := is_space c = true -> c = sp.

(** The text does not start with whitespace. *)
Definition hd_ok (s : text) : bool :=
  match s with
  | [] => true
  | c :: _ => negb (is_space c)
  end.

(** The pattern matches at no position of the text. *)
Fixpoint no_match (m : text -> option nat) (s : text) : Prop :=
  match s with
  | [] => True
  | _ :: r => m s = None /\ no_match m r
  end.

(** Two spaces in a row. *)
Fixpoint double_space (s : text) : bool :=
  match s with
  | a :: r =>
      match r with
      | b :: _ => (Ascii.eqb a sp && Ascii.eqb b sp) || double_space r
      | [] => false
      end
  | [] => false
  end.

(** Some boilerplate phrase occurs in [s], in any case. *)
Fixpoint has_phrase (s : text) : bool :=
  match s with
  | [] => false
  | _ :: r =>
      match match_phrase s with
      | Some _ => true
      | None => has_phrase r
      end
  end.

(** One tier of the cascade, run by itself on the soup [d]: its state
    after lines 94-104, from an empty [full_content]. *)
Definition tier (sel : selector) (d : node) : Locator.state :=
  Locator.scan_contents (select sel d) (d, [], false).

Definition nonempty_list (l : list text) : bool :=
  match l with [] => false | _ => true end.

Definition soup_of (st : Locator.state) : node := fst (fst st).
Definition blocks_of (st : Locator.state) : list text := snd (fst st).
Definition found_of (st : Locator.state) : bool := snd st.

(** The first tier of [sels] that yields an accepted block when it is
    run by itself on [d]. *)
Fixpoint first_yielding (sels : list selector) (d : node) : option selector :=
  match sels with
  | [] => None
  | sel :: sels' =>
      if found_of (tier sel d) then Some sel else first_yielding sels' d
  end.

(** The normalized text of each matched element at its turn in the loop
    of lines 96-104, accepted or not. *)
Fixpoint scan_texts (cs : list path) (d : node) : list text :=
  match cs with
  | [] => []
  | c :: cs' =>
      Locator.block c d :: scan_texts cs' (Locator.strip_unwanted c d)
  end.

(** The references the walk of lines 238-241 destroys, in order. *)
Fixpoint walk_deleted (rp : list nat) (d : node) : list path :=
  match get (rev rp) d with
  | Some n =>
      if Noise.walk_cond (encl_at (rev rp) d) n then
        rev rp ::
        match rp with
        | [] => []
        | _ :: rp' => walk_deleted rp' (decompose (rev rp) d)
        end
      else []
  | None => []
  end.

(** [a] is a reference to the object at [p] or to one above it. *)
Definition above (a p : path) : Prop := exists r, p = a ++ r.

(** The candidates of the authors list: the stripped text of every match
    of every selector, in the order of the loops. *)
Definition author_candidates (d : node) : list text :=
  flat_map (fun sel => map (fun e => Meta.stripped_text e d) (select sel d))
    Meta.author_selectors.

(** The first occurrences of the texts of [l] that are not empty and not
    in [seen], in the order of [l]. *)
Fixpoint firsts (seen : list text) (l : list text) : list text :=
  match l with
  | [] => []
  | a :: l' =>
      if Locator.nonempty a && negb (Meta.mem a seen)
      then a :: firsts (seen ++ [a]) l'
      else firsts seen l'
  end.

(** The [url] field, which both kinds of record have. *)
Definition result_url (r : result) : string :=
  match r with
  | Success u _ _ _ _ _ => u
  | Failure u _ => u
  end.



(** Two nodes with the same tag and attributes, or the same text: what
    the patterns and the selectors look at in a node. *)
Definition head_eq (n n' : node) : Prop :=
  match n, n' with
  | Text s, Text s' => s = s'
  | Comment s, Comment s' => s = s'
  | Elem t a _, Elem t' a' _ => t = t' /\ a = a'
  | Gone, Gone => True
  | _, _ => False
  end.

(** A test that looks at nothing else. *)
Definition shallow (pred : node -> bool) : Prop :=
  forall n n' : node, head_eq n n' -> pred n = pred n'.

(** The descendants through the children [l], numbered from [i]: the
    inner loop of [nodes]. *)
Section KidsNodes.

Variable f : node -> list (path * node).

Fixpoint kids_nodes (i : nat) (l : list node) : list (path * node) :=
  match l with
  | [] => []
  | k :: l' => map (fun pn => (i :: fst pn, snd pn)) (f k) ++ kids_nodes (S i) l'
  end.

End KidsNodes.

(** Structural induction on documents. *)
Fixpoint node_induction (P : node -> Prop)
    (HT : forall s, P (Text s)) (HC : forall s, P (Comment s)) (HG : P Gone)
    (HE : forall t a ks, Forall P ks -> P (Elem t a ks)) (n : node) : P n :=
  match n with
  | Text s => HT s
  | Comment s => HC s
  | Gone => HG
  | Elem t a ks =>
      HE t a ks
        ((fix go (l : list node) : Forall P l :=
            match l with
            | [] => Forall_nil P
            | k :: l' => Forall_cons k (node_induction HT HC HG HE k) (go l')
            end) ks)
  end.

(** [all(c.isspace() for c in t)] *)
Definition all_space (t : text) : bool := forallb is_space t.

(** *** The constants: lines 12-19 and 36-40 *)

Definition constants : list (string * string) :=
  [ ("oxylabs_scraper_username", "oxylabs_scraper_username");
    ("oxylabs_scraper_password", "oxylabs_scraper_password+b");
    ("zyte_api_url", "zyte_api_url");
    ("zyte_api_key_wokelo", "zyte_api_key_wokelo") ]%string.

(** [constants.get(key)] *)
Definition get_constant (key : string) : option string := assoc key constants.

(** The fields [__init__] sets. *)
Record proxy_scraper : Type := {
  oxylabs_username : option string;
  oxylabs_password : option string;
  zyte_api_url : option string;
  zyte_api_key : option string
}.

Definition init : proxy_scraper :=
  {| oxylabs_username := get_constant "oxylabs_scraper_username";
     oxylabs_password := get_constant "oxylabs_scraper_password";
     zyte_api_url := get_constant "zyte_api_url";
     zyte_api_key := get_constant "zyte_api_key_wokelo" |}.

(** ** Documents and collaborators of the examples *)

Definition soup (kids : list node) : node := Elem soup_tag [] kids.

Definition prose : string :=
  "The council met on Tuesday to approve the budget for public transport, parks and libraries, after months of debate among residents and local firms.".

Definition prose2 : string :=
  "Officials said the works on the river bridge will start in spring and last two years, with one lane kept open to traffic during the whole period.".

(** [<h1>Title Text</h1><main>...</main>] *)
Definition doc_main : node :=
  soup [Elem "h1" [] [Text "Title Text"]; Elem "main" [] [Text prose]].

(** [<article>Short teaser.<form><main>...</main></form></article>] *)
Definition doc_form : node :=
  soup [Elem "article" []
          [Text "Short teaser."; Elem "form" [] [Elem "main" [] [Text prose]]]].

(** [<article>Short teaser.<form><div itemprop="articleBody">...</div></form>
    </article><div class="article-content">...</div>] *)
Definition doc_shadow : node :=
  soup [Elem "article" []
          [Text "Short teaser.";
           Elem "form" []
             [Elem "div" [("itemprop", "articleBody")] [Text prose]]];
        Elem "div" [("class", "article-content")] [Text prose2]]%string.

(** [<article>...</article><main>...</main>] *)
Definition doc_two_tiers : node :=
  soup [Elem "main" [] [Text prose2]; Elem "article" [] [Text prose]].

(** [<div itemprop="articleBody">Short teaser.</div><main>...</main>] *)
Definition doc_short_first : node :=
  soup [Elem "div" [("itemprop", "articleBody")] [Text "Short teaser."];
        Elem "main" [] [Text prose]]%string.

(** [<button><span>Read More</span></button>] *)
Definition doc_button_span : node :=
  soup [Elem "button" [] [Elem "span" [] [Text "Read More"]]].

(** [<p>Story.</p><button>Read More</button>] *)
Definition doc_button : node :=
  soup [Elem "p" [] [Text "Story."]; Elem "button" [] [Text "Read More"]].

(** [<div><a>Read more</a><a>Read more</a></div>] *)
Definition doc_two_links : node :=
  soup [Elem "div" []
          [Elem "a" [] [Text "Read more"]; Elem "a" [] [Text "Read more"]]].

(** Three matches of the author selectors. *)
Definition doc_authors : node :=
  soup [Elem "span" [("class", "byline")] [Text "jane doe"];
        Elem "span" [("itemprop", "author")] [Text "Jane Doe"];
        Elem "div" [("class", "article-author")] [Text " Jane Doe "]]%string.


(** [<div id="Advertisement-Block">Buy now</div><p>Story.</p>
    <div class="box Read-More-Button">More</div>] *)
Definition doc_ad : node :=
  soup [Elem "div" [("id", "Advertisement-Block")] [Text "Buy now"];
        Elem "p" [] [Text "Story."];
        Elem "div" [("class", "box Read-More-Button")] [Text "More"]]%string.

(** [n] times the letter x. *)
Fixpoint filler (n : nat) : string :=
  match n with
  | 0 => EmptyString
  | S m => String "x" (filler m)
  end.

(** [<div>Read more<script>...1200 characters...</script></div>] *)
Definition doc_script : node :=
  soup [Elem "div" [] [Text "Read more"; Elem "script" [] [Text (filler 1200)]]].

(** [<main>...60 characters...<template><p>...60 characters...</p>
    </template></main>] *)
Definition doc_template : node :=
  soup [Elem "main" []
          [Text (filler 60);
           Elem "template" [] [Elem "p" [] [Text (filler 60)]]]].

(** [<div><!--advertisement-->Story.</div>] *)
Definition doc_comment : node :=
  soup [Elem "div" [] [Comment "advertisement"; Text "Story."]].


(** Collaborators that answer every request with the markup [html], parse
    it to [d], whose selector engine answers every query, and whose
    generic extractor answers [art]. *)
Definition fixed (d : node) (html : text) (art : res text) : collaborators :=
  {| parse := fun _ => Ok d;
     render := fun _ => Ok html;
     select_raises := quiet;
     zyte_browser_html := fun _ => Ok (Some html);
     zyte_response_body := fun _ => Ok html;
     oxylabs_query := fun _ => Ok (200, Ok (Some html));
     article_text := fun _ _ _ => art |}.

(** The same collaborators with another generic extractor. *)
Definition with_article (C : collaborators)
    (f : string -> string -> text -> res text) : collaborators :=
  {| parse := parse C;
     render := render C;
     select_raises := select_raises C;
     zyte_browser_html := zyte_browser_html C;
     zyte_response_body := zyte_response_body C;
     oxylabs_query := oxylabs_query C;
     article_text := f |}.

(** The same collaborators with another parser, another printer, another
    selector engine. *)
Definition with_parser (C : collaborators) (f : text -> res node)
    : collaborators :=
  {| parse := f;
     render := render C;
     select_raises := select_raises C;
     zyte_browser_html := zyte_browser_html C;
     zyte_response_body := zyte_response_body C;
     oxylabs_query := oxylabs_query C;
     article_text := article_text C |}.

Definition with_printer (C : collaborators) (f : node -> res text)
    : collaborators :=
  {| parse := parse C;
     render := f;
     select_raises := select_raises C;
     zyte_browser_html := zyte_browser_html C;
     zyte_response_body := zyte_response_body C;
     oxylabs_query := oxylabs_query C;
     article_text := article_text C |}.

Definition with_engine (C : collaborators) (f : engine) : collaborators :=
  {| parse := parse C;
     render := render C;
     select_raises := f;
     zyte_browser_html := zyte_browser_html C;
     zyte_response_body := zyte_response_body C;
     oxylabs_query := oxylabs_query C;
     article_text := article_text C |}.

Definition simple_eqb (a b : simple) : bool :=
  match a, b with
  | STag x, STag y => String.eqb x y
  | SClass x, SClass y => String.eqb x y
  | SId x, SId y => String.eqb x y
  | SAttr k v, SAttr k' v' => String.eqb k k' && String.eqb v v'
  | _, _ => false
  end.

Fixpoint selector_eqb (a b : selector) : bool :=
  match a, b with
  | [], [] => true
  | x :: a', y :: b' => simple_eqb x y && selector_eqb a' b'
  | _, _ => false
  end.

(** A parser that parses to [d] the markup that passes the test [ok],
    and raises on the rest. *)
Definition parser_from (ok : text -> bool) (d : node) (e : string)
    : text -> res node :=
  fun t => if ok t then Ok d else Raise e.

(** An engine that raises on the queries of one selector. *)
Definition raises_on (sel : selector) (e : string) : engine :=
  fun sel' _ => if selector_eqb sel sel' then Some e else None.

(** ** The Text Normalizer *)

Example clean_text_ex1 :
  clean_text (T ("  Hello   world" ++ LF ++ " " ++ LF ++ "Read More now ")%string)
  = T "Hello world  now".
Proof. vm_compute. reflexivity. Qed.

(** ** Facts about the normalizer *)

Section NormalizerFacts.

Lemma sub_from_ws_only_sp (s : text) :
  forall k, Forall only_sp (sub_from match_ws [sp] k s).
Proof.
  induction s as [|c r IH]; intros k; simpl.
  - constructor.
  - destruct k as [|k]; [|apply IH].
    unfold match_ws; simpl.
    destruct (is_space c) eqn:Hc.
    + simpl. constructor; [intros _; reflexivity | apply IH].
    + constructor; [|apply IH].
      intros H. unfold only_sp in *. congruence.
Qed.

(** A pass that replaces by the empty string only deletes characters. *)
Lemma sub_from_erase_Forall (P : ascii -> Prop) (m : text -> option nat) (s : text) :
  forall k, Forall P s -> Forall P (sub_from m [] k s).
Proof.
  induction s as [|c r IH]; intros k H; simpl.
  - constructor.
  - inversion H; subst.
    destruct k as [|k]; [|apply IH; assumption].
    destruct (m (c :: r)) as [[|n]|]; simpl.
    + constructor; [assumption | apply IH; assumption].
    + apply IH; assumption.
    + constructor; [assumption | apply IH; assumption].
Qed.

Lemma lstrip_Forall (P : ascii -> Prop) (s : text) :
  Forall P s -> Forall P (lstrip s).
Proof.
  induction 1 as [|c r Hc Hr IH]; simpl.
  - constructor.
  - destruct (is_space c); [assumption | constructor; assumption].
Qed.

Lemma strip_Forall (P : ascii -> Prop) (s : text) :
  Forall P s -> Forall P (strip s).
Proof.
  intros H. unfold strip, rstrip.
  apply Forall_rev, lstrip_Forall, Forall_rev, lstrip_Forall, H.
Qed.

Lemma clean_text_only_sp (t : text) : Forall only_sp (clean_text t).
Proof.
  destruct t as [|c r]; [constructor|].
  unfold clean_text.
  apply strip_Forall, sub_from_erase_Forall.
  apply sub_from_ws_only_sp.
Qed.

Lemma lstrip_hd_ok (s : text) : hd_ok (lstrip s) = true.
Proof.
  induction s as [|c r IH]; simpl; [reflexivity|].
  destruct (is_space c) eqn:Hc; [assumption|].
  simpl. rewrite Hc. reflexivity.
Qed.

Lemma lstrip_fix (s : text) : hd_ok s = true -> lstrip s = s.
Proof.
  destruct s as [|c r]; simpl; [reflexivity|].
  destruct (is_space c); [discriminate | reflexivity].
Qed.

Lemma lstrip_app_nonspace (a b : text) (c : ascii) :
  is_space c = false -> lstrip (a ++ c :: b) = lstrip a ++ c :: b.
Proof.
  intros Hc. induction a as [|x a IH]; simpl.
  - rewrite Hc. reflexivity.
  - destruct (is_space x); [assumption | reflexivity].
Qed.

Lemma rstrip_hd_ok (s : text) : hd_ok s = true -> hd_ok (rstrip s) = true.
Proof.
  destruct s as [|c r]; [reflexivity|].
  simpl. intros Hc. apply negb_true_iff in Hc.
  unfold rstrip. simpl.
  rewrite lstrip_app_nonspace by assumption.
  rewrite rev_app_distr. simpl. rewrite Hc. reflexivity.
Qed.

Lemma rstrip_idem (s : text) : rstrip (rstrip s) = rstrip s.
Proof.
  unfold rstrip. rewrite rev_involutive.
  rewrite (lstrip_fix _ (lstrip_hd_ok (rev s))). reflexivity.
Qed.

Lemma strip_idem (s : text) : strip (strip s) = strip s.
Proof.
  unfold strip.
  rewrite (lstrip_fix _ (rstrip_hd_ok _ (lstrip_hd_ok s))).
  apply rstrip_idem.
Qed.

Lemma sub_from_no_match (m : text -> option nat) (repl s : text) :
  no_match m s -> re_sub m repl s = s.
Proof.
  unfold re_sub.
  induction s as [|c r IH]; simpl; [reflexivity|].
  intros [H1 H2]. rewrite H1, IH by assumption. reflexivity.
Qed.

Lemma nl_is_space : is_space nl = true.
Proof. reflexivity. Qed.

Lemma only_sp_not_nl (c : ascii) : only_sp c -> is_nl c = false.
Proof.
  intros H. unfold is_nl. destruct (Ascii.eqb c nl) eqn:E; [|reflexivity].
  apply Ascii.eqb_eq in E. subst c.
  specialize (H nl_is_space). discriminate H.
Qed.

Lemma only_sp_no_blank (s : text) :
  Forall only_sp s -> no_match match_blank s.
Proof.
  induction 1 as [|c r Hc Hr IH]; simpl; [exact I|].
  rewrite (only_sp_not_nl Hc). split; [reflexivity | assumption].
Qed.

Lemma span_ws_after_sp (r : text) :
  Forall only_sp r -> double_space (sp :: r) = false -> span_ws r = 0.
Proof.
  destruct r as [|b r']; [reflexivity|].
  intros H D. inversion H as [|? ? Hb Hr]; subst.
  simpl. destruct (is_space b) eqn:Eb; [|reflexivity].
  rewrite (Hb Eb) in D. simpl in D. discriminate D.
Qed.

Lemma double_space_tail (c : ascii) (r : text) :
  double_space (c :: r) = false -> double_space r = false.
Proof.
  destruct r as [|b r']; [reflexivity|].
  intros D. change (double_space (c :: b :: r'))
    with ((Ascii.eqb c sp && Ascii.eqb b sp) || double_space (b :: r')) in D.
  apply orb_false_iff in D. apply D.
Qed.

Lemma match_ws_cons (c : ascii) (r : text) :
  match_ws (c :: r) = if is_space c then Some (S (span_ws r)) else None.
Proof. unfold match_ws. simpl. destruct (is_space c); reflexivity. Qed.

Lemma sub_ws_fix (s : text) :
  Forall only_sp s -> double_space s = false -> re_sub match_ws [sp] s = s.
Proof.
  unfold re_sub.
  induction 1 as [|c r Hc Hr IH]; intros D; [reflexivity|].
  pose proof (double_space_tail _ _ D) as D'.
  cbn [sub_from]. rewrite match_ws_cons.
  destruct (is_space c) eqn:Ec.
  - rewrite (Hc Ec) in *.
    rewrite (span_ws_after_sp Hr D). cbn [app].
    rewrite IH by assumption. reflexivity.
  - rewrite IH by assumption. reflexivity.
Qed.

Lemma has_phrase_no_match (s : text) :
  has_phrase s = false -> no_match match_phrase s.
Proof.
  induction s as [|c r IH]; simpl; [intros; exact I|].
  destruct (match_phrase (c :: r)); [discriminate|].
  intros H. split; [reflexivity | apply IH, H].
Qed.

(** The normalizer leaves alone a text that has spaces as its only
    whitespace, none of them doubled, leading or trailing, and that holds
    no boilerplate phrase. *)
Lemma clean_text_fix (u : text) :
  Forall only_sp u -> double_space u = false -> has_phrase u = false ->
  strip u = u -> clean_text u = u.
Proof.
  intros Hs Hd Hp Hst.
  destruct u as [|c r]; [reflexivity|].
  unfold clean_text.
  cbv zeta.
  rewrite sub_from_no_match with (m := match_blank)
    by (apply only_sp_no_blank, Hs).
  rewrite sub_ws_fix by assumption.
  rewrite sub_from_no_match by (apply has_phrase_no_match, Hp).
  exact Hst.
Qed.

Lemma clean_text_stripped (t : text) : strip (clean_text t) = clean_text t.
Proof.
  destruct t as [|c r]; [reflexivity|].
  unfold clean_text. apply strip_idem.
Qed.

Lemma clean_text_no_nl (t : text) : ~ In nl (clean_text t).
Proof.
  intros H.
  pose proof (clean_text_only_sp t) as F.
  rewrite Forall_forall in F.
  specialize (F nl H nl_is_space). discriminate F.
Qed.

End NormalizerFacts.

(** ** Exceptions *)

Lemma bind_Ok (A B : Type) (a : A) (f : A -> res B) : bind (Ok a) f = f a.
Proof. reflexivity. Qed.

(** ** The document tree and the Noise Stripper *)

Section DomFacts.

Lemma nth_error_update (f : node -> node) (ks : list node) :
  forall i j : nat,
    nth_error (update j f ks) i =
    if i =? j then option_map f (nth_error ks i) else nth_error ks i.
Proof.
  induction ks as [|k ks IH]; intros i j.
  - destruct i; destruct j; cbn; try reflexivity.
    destruct (i =? j); reflexivity.
  - destruct j as [|j]; destruct i as [|i]; cbn; try reflexivity.
    apply IH.
Qed.

(** A destroyed object is gone. *)
Lemma get_decompose_self (p : path) :
  forall d : node, get p (decompose p d) = None.
Proof.
  induction p as [|i p IH]; intros d; [reflexivity|].
  destruct d as [s|s|t a ks|]; try reflexivity.
  cbn [decompose get]. rewrite nth_error_update, Nat.eqb_refl.
  destruct (nth_error ks i); cbn; [apply IH | reflexivity].
Qed.

(** It stays gone whatever is destroyed next. *)
Lemma get_none_decompose (p : path) :
  forall (q : path) (d : node),
    get p d = None -> get p (decompose q d) = None.
Proof.
  induction p as [|i p IH]; intros q d H.
  - destruct d; try discriminate H. destruct q; reflexivity.
  - destruct q as [|j q]; [reflexivity|].
    destruct d as [s|s|t a ks|]; try reflexivity.
    cbn [decompose get] in *. rewrite nth_error_update.
    destruct (i =? j); [|exact H].
    destruct (nth_error ks i); cbn; [apply IH, H | reflexivity].
Qed.

Lemma walk_up_eq (rp : list nat) (d : node) :
  Noise.walk_up rp d =
  match get (rev rp) d with
  | Some n =>
      if Noise.walk_cond (encl_at (rev rp) d) n
      then Noise.walk_up (tl rp) (decompose (rev rp) d)
      else d
  | None => d
  end.
Proof.
  destruct rp as [|i rp]; cbn [Noise.walk_up tl]; [|reflexivity].
  destruct (get (rev []) d); [|reflexivity].
  destruct (Noise.walk_cond _ n); reflexivity.
Qed.

Lemma walk_up_keeps_none (p : path) (rp : list nat) :
  forall d : node, get p d = None -> get p (Noise.walk_up rp d) = None.
Proof.
  induction rp as [|i rp IH]; intros d H.
  - cbn [Noise.walk_up]. destruct (get (rev []) d); [|exact H].
    destruct (Noise.walk_cond _ n); [apply get_none_decompose, H | exact H].
  - cbn [Noise.walk_up]. destruct (get (rev (i :: rp)) d); [|exact H].
    destruct (Noise.walk_cond _ n); [|exact H].
    apply IH, get_none_decompose, H.
Qed.

Lemma walk_cond_iff (encl : option string) (n : node) :
  Noise.walk_cond encl n = true <->
  In (name n) Noise.walk_tags /\ List.length (get_text encl n) < 1000.
Proof.
  unfold Noise.walk_cond. rewrite andb_true_iff, Nat.ltb_lt.
  split; intros [H1 H2]; split; try assumption.
  - apply existsb_exists in H1. destruct H1 as [t [Ht Hn]].
    apply String.eqb_eq in Hn. rewrite Hn. exact Ht.
  - apply existsb_exists. exists (name n). split; [exact H1|].
    apply String.eqb_refl.
Qed.

(** The text of an element leaves out the strings of its [script],
    [style] and [template] descendants and its comments; inside such an
    element, an element of another kind has no text; the element itself
    yields its own strings. *)
Example get_text_skips_script :
  text_at [0] doc_script = T "Read more" /\
  text_at [0; 1] doc_script = T (filler 1200) /\
  text_at [0] doc_template = T (filler 60) /\
  text_at [0; 1; 0] doc_template = [] /\
  text_at [0; 1] doc_template = T (filler 60) /\
  text_at [0] doc_comment = T "Story.".
Proof. repeat split; vm_compute; reflexivity. Qed.

(** A comment is a string for [find_all(string=...)]: the pass of the
    text patterns walks up from it as from any other string. *)
Example comment_is_matched :
  find_all (Noise.text_matches "advertisement") [] doc_comment = [[0; 0]] /\
  Noise.strip_noise doc_comment = Ok (soup [Gone]).
Proof. split; vm_compute; reflexivity. Qed.

(** The length test of the walk does not count the text of a script: a
    [div] with nine characters of its own and a script of 1200 is
    destroyed. *)
Example walk_ignores_script_text :
  Noise.walk_cond (encl_at [0] doc_script)
    (Elem "div" [] [Text "Read more"; Elem "script" [] [Text (filler 1200)]])
  = true /\
  Noise.strip_noise doc_script = Ok (soup [Gone]).
Proof. split; vm_compute; reflexivity. Qed.

(** Nor does the locator count the text of a template: sixty characters
    of text and sixty more in a template are no block. *)
Example locate_skips_template :
  Locator.block [0] doc_template = T (filler 60) /\
  Locator.locate doc_template = (doc_template, [], false).
Proof. split; vm_compute; reflexivity. Qed.

End DomFacts.

(** ** The Content Locator *)

Section LocatorFacts.

Import Locator.

Lemma accepted_iff (t : text) : accepted t = true <-> 100 < List.length t.
Proof.
  unfold accepted. destruct t as [|c r]; cbn [nonempty andb].
  - split; [discriminate | cbn; lia].
  - apply Nat.ltb_lt.
Qed.

Lemma accepted_ltb (t : text) : accepted t = (100 <? List.length t).
Proof.
  unfold accepted. destruct t as [|c r]; reflexivity.
Qed.

Lemma scan_contents_cons (c : path) (cs : list path) (d : node)
    (full : list text) (found : bool) :
  scan_contents (c :: cs) (d, full, found) =
  if accepted (block c d)
  then scan_contents cs (strip_unwanted c d, full ++ [block c d], true)
  else scan_contents cs (strip_unwanted c d, full, found).
Proof. reflexivity. Qed.

(** The loop only appends to [full_content] and only raises the flag. *)
Lemma scan_contents_acc (cs : list path) :
  forall (d : node) (full : list text) (found : bool),
    scan_contents cs (d, full, found) =
    (soup_of (scan_contents cs (d, [], false)),
     full ++ blocks_of (scan_contents cs (d, [], false)),
     found || found_of (scan_contents cs (d, [], false))).
Proof.
  induction cs as [|c cs IH]; intros d full found.
  - cbn. rewrite app_nil_r, orb_false_r. reflexivity.
  - rewrite !scan_contents_cons.
    destruct (accepted (block c d)).
    + rewrite (IH _ (full ++ [block c d]) true).
      rewrite (IH _ ([] ++ [block c d]) true).
      unfold soup_of, blocks_of, found_of. cbn [fst snd].
      rewrite <- app_assoc, orb_true_r. reflexivity.
    + apply IH.
Qed.

(** The accepted blocks are the texts longer than 100 characters. *)
Lemma scan_contents_blocks (cs : list path) :
  forall d : node,
    blocks_of (scan_contents cs (d, [], false)) = filter accepted (scan_texts cs d).
Proof.
  induction cs as [|c cs IH]; intros d; [reflexivity|].
  rewrite scan_contents_cons. cbn [scan_texts filter].
  destruct (accepted (block c d)).
  - rewrite scan_contents_acc. unfold blocks_of at 1. cbn [fst snd].
    rewrite IH. reflexivity.
  - apply IH.
Qed.

Lemma scan_contents_found (cs : list path) :
  forall d : node,
    found_of (scan_contents cs (d, [], false)) =
    nonempty_list (blocks_of (scan_contents cs (d, [], false))).
Proof.
  induction cs as [|c cs IH]; intros d; [reflexivity|].
  rewrite scan_contents_cons.
  destruct (accepted (block c d)).
  - rewrite scan_contents_acc. unfold blocks_of at 1, found_of at 1.
    cbn [fst snd app orb nonempty_list]. reflexivity.
  - apply IH.
Qed.

Lemma tier_found_iff (sel : selector) (d : node) :
  found_of (tier sel d) = true <-> blocks_of (tier sel d) <> [].
Proof.
  unfold tier. rewrite scan_contents_found.
  destruct (blocks_of _); cbn; split; congruence.
Qed.

Lemma tier_miss_blocks (sel : selector) (d : node) :
  found_of (tier sel d) = false -> blocks_of (tier sel d) = [].
Proof.
  unfold tier. rewrite scan_contents_found.
  destruct (blocks_of _); cbn; congruence.
Qed.

Lemma cascade_cons (sel : selector) (sels : list selector) (d : node) :
  cascade (sel :: sels) (d, [], false) =
  if found_of (tier sel d) then tier sel d
  else cascade sels (soup_of (tier sel d), [], false).
Proof.
  cbn [cascade]. fold (tier sel d).
  pose proof (@tier_miss_blocks sel d) as Hm.
  destruct (tier sel d) as [[d1 full1] f1].
  unfold found_of, soup_of, blocks_of in *. cbn [fst snd] in *.
  destruct f1; [reflexivity|].
  rewrite (Hm eq_refl). reflexivity.
Qed.

(** The tiers that accept nothing leave [full_content] empty and pass
    the soup on. *)
Lemma cascade_app_miss (pre : list selector) :
  forall (d d1 : node) (rest : list selector),
    cascade pre (d, [], false) = (d1, [], false) ->
    cascade (pre ++ rest) (d, [], false) = cascade rest (d1, [], false).
Proof.
  induction pre as [|sel pre IH]; intros d d1 rest H.
  - cbn in H. inversion H; subst. reflexivity.
  - cbn [app]. rewrite cascade_cons in *.
    destruct (found_of (tier sel d)) eqn:Hf.
    + rewrite H in Hf. discriminate Hf.
    + apply IH, H.
Qed.

Lemma cascade_first_hit (pre post : list selector) (sel : selector)
    (d d1 : node) :
  cascade pre (d, [], false) = (d1, [], false) ->
  found_of (tier sel d1) = true ->
  cascade (pre ++ sel :: post) (d, [], false) = tier sel d1.
Proof.
  intros Hpre Hhit.
  rewrite cascade_app_miss with (d1 := d1) by exact Hpre.
  rewrite cascade_cons, Hhit. reflexivity.
Qed.

End LocatorFacts.

Section LocatorInvariant.

Import Locator.

(** [found_content] is set exactly when [full_content] is not empty. *)
Lemma cascade_found (sels : list selector) :
  forall d : node,
    found_of (cascade sels (d, [], false)) =
    nonempty_list (blocks_of (cascade sels (d, [], false))).
Proof.
  induction sels as [|sel sels IH]; intros d; [reflexivity|].
  rewrite cascade_cons.
  destruct (found_of (tier sel d)) eqn:Hf; [|apply IH].
  rewrite Hf. apply tier_found_iff in Hf.
  destruct (blocks_of (tier sel d)); [congruence | reflexivity].
Qed.

Lemma locate_found (d d1 : node) (full : list text) (flag : bool) :
  locate d = (d1, full, flag) -> flag = nonempty_list full.
Proof.
  intros H. pose proof (cascade_found content_selectors d) as F.
  unfold locate in H. rewrite H in F. exact F.
Qed.

End LocatorInvariant.

(** ** Metadata Recovery *)

Section MetaFacts.

Import Meta.

Lemma text_eqb_eq (a b : text) : text_eqb a b = true <-> a = b.
Proof.
  unfold text_eqb. destruct (list_eq_dec ascii_dec a b); split; congruence.
Qed.

Lemma mem_In (a : text) (l : list text) : mem a l = true <-> In a l.
Proof.
  unfold mem. rewrite existsb_exists. split.
  - intros [x [Hx He]]. apply text_eqb_eq in He. subst. exact Hx.
  - intros H. exists a. split; [exact H | apply text_eqb_eq; reflexivity].
Qed.

Lemma mem_false (a : text) (l : list text) : mem a l = false <-> ~ In a l.
Proof.
  rewrite <- mem_In. destruct (mem a l); split; congruence.
Qed.

Lemma add_authors_firsts (elems : list path) (d : node) :
  forall authors : list text,
    add_authors elems d authors =
    authors ++ firsts authors (map (fun e => stripped_text e d) elems).
Proof.
  induction elems as [|e elems IH]; intros authors; cbn [add_authors map firsts].
  - rewrite app_nil_r. reflexivity.
  - destruct (Locator.nonempty (stripped_text e d) && negb (mem (stripped_text e d) authors)).
    + rewrite IH, <- app_assoc. reflexivity.
    + apply IH.
Qed.

Lemma firsts_app (l1 l2 : list text) :
  forall seen : list text,
    firsts seen (l1 ++ l2) = firsts seen l1 ++ firsts (seen ++ firsts seen l1) l2.
Proof.
  induction l1 as [|a l1 IH]; intros seen; cbn [app firsts].
  - rewrite app_nil_r. reflexivity.
  - destruct (Locator.nonempty a && negb (mem a seen)).
    + cbn [app]. rewrite IH, <- app_assoc. reflexivity.
    + apply IH.
Qed.

Lemma authors_loop_firsts (sels : list selector) (d : node) :
  forall authors : list text,
    authors_loop sels d authors =
    authors ++
    firsts authors
      (flat_map (fun sel => map (fun e => stripped_text e d) (select sel d)) sels).
Proof.
  induction sels as [|sel sels IH]; intros authors; cbn [authors_loop flat_map firsts].
  - rewrite app_nil_r. reflexivity.
  - rewrite IH, add_authors_firsts, firsts_app, <- app_assoc. reflexivity.
Qed.

Lemma firsts_In (l : list text) :
  forall (seen : list text) (x : text),
    In x (firsts seen l) <-> In x l /\ x <> [] /\ ~ In x seen.
Proof.
  induction l as [|a l IH]; intros seen x; cbn [firsts].
  - cbn. tauto.
  - destruct (Locator.nonempty a) eqn:Ha; cbn [andb].
    + destruct (mem a seen) eqn:Hm; cbn [negb].
      * apply mem_In in Hm. rewrite IH. cbn [In].
        split; [tauto|]. intros [[E|H] [H1 H2]]; [subst; tauto | tauto].
      * apply mem_false in Hm. cbn [In]. rewrite IH, in_app_iff. cbn [In].
        destruct (list_eq_dec ascii_dec a x) as [E|E].
        -- subst. split; [intros _|tauto].
           split; [tauto|]. split; [|exact Hm].
           destruct x; [discriminate Ha | discriminate].
        -- tauto.
    + rewrite IH. cbn [In].
      split; [tauto|]. intros [[E|H] [H1 H2]]; [|tauto].
      subst. destruct x; [congruence | discriminate Ha].
Qed.

Lemma firsts_NoDup (l : list text) :
  forall seen : list text, NoDup (firsts seen l).
Proof.
  induction l as [|a l IH]; intros seen; cbn [firsts]; [constructor|].
  destruct (Locator.nonempty a && negb (mem a seen)); [|apply IH].
  constructor; [|apply IH].
  rewrite firsts_In, in_app_iff. cbn [In]. tauto.
Qed.



End MetaFacts.

(** ** References and destruction *)

Section References.

Lemma nodes_elem (t : string) (a : list (string * string)) (ks : list node) :
  nodes (Elem t a ks) = ([], Elem t a ks) :: kids_nodes nodes 0 ks.
Proof. reflexivity. Qed.

Lemma kids_nodes_In (ks : list node) :
  Forall (fun k => forall p n, In (p, n) (nodes k) <-> get p k = Some n) ks ->
  forall (i : nat) (p : path) (n : node),
    In (p, n) (kids_nodes nodes i ks) <->
    exists (j : nat) (k : node) (p' : path),
      p = (i + j) :: p' /\ nth_error ks j = Some k /\ get p' k = Some n.
Proof.
  induction 1 as [|k ks Hk Hks IH]; intros i p n; cbn [kids_nodes].
  - split; [intros []|]. intros (j & k & p' & _ & H & _).
    destruct j; discriminate H.
  - rewrite in_app_iff, in_map_iff, IH. split.
    + intros [((p0, n0) & E & Hin) | (j & k' & p' & E & Hn & Hg)].
      * cbn [fst snd] in E. inversion E; subst.
        exists 0, k, p0. rewrite Nat.add_0_r.
        repeat split. apply Hk, Hin.
      * exists (S j), k', p'. subst p.
        rewrite Nat.add_succ_r. repeat split; assumption.
    + intros (j & k' & p' & E & Hn & Hg). destruct j as [|j].
      * left. cbn in Hn. inversion Hn; subst k'.
        exists (p', n). rewrite Nat.add_0_r in E. subst p.
        split; [reflexivity | apply Hk, Hg].
      * right. exists j, k', p'. rewrite Nat.add_succ_r in E.
        repeat split; assumption.
Qed.

(** [nodes] lists the live objects, each under its reference. *)
Lemma nodes_get (d : node) :
  forall (p : path) (n : node), In (p, n) (nodes d) <-> get p d = Some n.
Proof.
  induction d as [s|s| |t a ks IH] using node_induction; intros p n.
  - cbn. destruct p; split; try tauto; try discriminate.
    + intros [E|[]]. inversion E. reflexivity.
    + intros E. inversion E. left. reflexivity.
    + intros [E|[]]. discriminate E.
  - cbn. destruct p; split; try tauto; try discriminate.
    + intros [E|[]]. inversion E. reflexivity.
    + intros E. inversion E. left. reflexivity.
    + intros [E|[]]. discriminate E.
  - cbn. destruct p; split; try tauto; discriminate.
  - rewrite nodes_elem. cbn [In]. rewrite (kids_nodes_In IH). split.
    + intros [E | (j & k & p' & E & Hn & Hg)].
      * inversion E; subst. reflexivity.
      * subst p. cbn. rewrite Hn. exact Hg.
    + destruct p as [|i p']; cbn [get].
      * intros E. inversion E. left. reflexivity.
      * destruct (nth_error ks i) as [k|] eqn:Hn; [|discriminate].
        intros Hg. right. exists i, k, p'. repeat split; assumption.
Qed.

Lemma descendants_get (d : node) (p : path) (n : node) :
  In (p, n) (descendants d) <-> p <> [] /\ get p d = Some n.
Proof.
  rewrite <- nodes_get. unfold descendants.
  destruct d as [s|s|t a ks|].
  - cbn. split; [tauto|]. intros [H [E|[]]]. inversion E. congruence.
  - cbn. split; [tauto|]. intros [H [E|[]]]. inversion E. congruence.
  - rewrite nodes_elem. cbn [tl In]. split.
    + intros H. split; [|right; exact H].
      pose proof (@kids_nodes_In ks) as K.
      clear K. revert H. generalize 0.
      induction ks as [|k ks IHk]; intros i; cbn [kids_nodes]; [intros []|].
      rewrite in_app_iff, in_map_iff.
      intros [((p0, n0) & E & _) | H]; [inversion E; discriminate|].
      apply (IHk _ H).
    + intros [Hp [E|H]]; [inversion E; congruence | exact H].
  - cbn. tauto.
Qed.

Lemma get_app (q r : path) :
  forall d : node,
    get (q ++ r) d =
    match get q d with
    | Some n => get r n
    | None => None
    end.
Proof.
  induction q as [|i q IH]; intros d; cbn [app get].
  - destruct d; try reflexivity. destruct r; reflexivity.
  - destruct d as [s|s|t a ks|]; try reflexivity.
    destruct (nth_error ks i); [apply IH | reflexivity].
Qed.

(** What [find_all] returns: the references below [q] to the live
    objects that pass the test. *)
Lemma find_all_In (pred : node -> bool) (q p : path) (d : node) :
  In p (find_all pred q d) <->
  exists (r : path) (n : node),
    p = q ++ r /\ r <> [] /\ get p d = Some n /\ pred n = true.
Proof.
  unfold find_all. destruct (get q d) as [nq|] eqn:Hq.
  - rewrite in_map_iff. split.
    + intros ((r, n) & E & Hin). cbn [fst] in E. subst p.
      apply filter_In in Hin. destruct Hin as [Hin Hp].
      apply descendants_get in Hin. destruct Hin as [Hr Hg].
      exists r, n. rewrite get_app, Hq. repeat split; assumption.
    + intros (r & n & E & Hr & Hg & Hp). subst p.
      rewrite get_app, Hq in Hg.
      exists (r, n). split; [reflexivity|].
      apply filter_In. split; [|exact Hp].
      apply descendants_get. split; assumption.
  - split; [intros []|].
    intros (r & n & E & _ & Hg & _). subst p.
    rewrite get_app, Hq in Hg. discriminate Hg.
Qed.

End References.

(** ** What destruction leaves *)

Section Destruction.

Lemma head_eq_refl (n : node) : head_eq n n.
Proof. destruct n; cbn; auto. Qed.

(** An object that is still there after a [decompose] was there before,
    with the same tag and attributes, or the same text. *)
Lemma get_decompose_some (p : path) :
  forall (x : path) (d n : node),
    get p (decompose x d) = Some n ->
    exists n0 : node, get p d = Some n0 /\ head_eq n0 n.
Proof.
  induction p as [|i p IH]; intros x d n H.
  - destruct x as [|j x]; [discriminate H|].
    destruct d as [s|s|t a ks|]; cbn in H; try discriminate H;
      inversion H; subst; eexists; (split; [reflexivity|]); cbn; auto.
  - destruct x as [|j x]; [discriminate H|].
    destruct d as [s|s|t a ks|]; try discriminate H.
    cbn [decompose get] in *. rewrite nth_error_update in H.
    destruct (i =? j).
    + destruct (nth_error ks i) as [k|]; [|discriminate H].
      cbn [option_map] in H. apply (IH _ _ _ H).
    + destruct (nth_error ks i) as [k|]; [|discriminate H].
      exists n. split; [exact H | apply head_eq_refl].
Qed.

Lemma head_eq_trans (a b c : node) : head_eq a b -> head_eq b c -> head_eq a c.
Proof.
  destruct a, b, c; cbn; try tauto; try congruence.
  intros [? ?] [? ?]. split; congruence.
Qed.

Lemma get_decompose_all_some (ps : list path) :
  forall (p : path) (d n : node),
    get p (Noise.decompose_all ps d) = Some n ->
    exists n0 : node, get p d = Some n0 /\ head_eq n0 n.
Proof.
  unfold Noise.decompose_all.
  induction ps as [|x ps IH]; intros p d n H; cbn [fold_left] in H.
  - exists n. split; [exact H | apply head_eq_refl].
  - apply IH in H. destruct H as (n1 & H1 & E1).
    apply get_decompose_some in H1. destruct H1 as (n0 & H0 & E0).
    exists n0. split; [exact H0 | exact (head_eq_trans _ _ _ E0 E1)].
Qed.

Lemma get_none_decompose_all (ps : list path) :
  forall (p : path) (d : node),
    get p d = None -> get p (Noise.decompose_all ps d) = None.
Proof.
  unfold Noise.decompose_all.
  induction ps as [|x ps IH]; intros p d H; cbn [fold_left]; [exact H|].
  apply IH, get_none_decompose, H.
Qed.

Lemma get_decompose_all_In (ps : list path) :
  forall (p : path) (d : node),
    In p ps -> get p (Noise.decompose_all ps d) = None.
Proof.
  induction ps as [|x ps IH]; intros p d Hin; [destruct Hin|].
  destruct Hin as [E|H].
  - subst x. apply (get_none_decompose_all ps), get_decompose_self.
  - apply (IH p (decompose x d) H).
Qed.

Lemma find_all_nil (pred : node -> bool) (q : path) (d : node) :
  find_all pred q d = [] <->
  (forall (r : path) (n : node),
     r <> [] -> get (q ++ r) d = Some n -> pred n = false).
Proof.
  split.
  - intros E r n Hr Hg. destruct (pred n) eqn:Hp; [|reflexivity].
    assert (In (q ++ r) (find_all pred q d)) as Hin.
    { apply find_all_In. exists r, n. repeat split; assumption. }
    rewrite E in Hin. destruct Hin.
  - intros H. destruct (find_all pred q d) as [|p l] eqn:E; [reflexivity|].
    assert (In p (find_all pred q d)) as Hin by (rewrite E; left; reflexivity).
    apply find_all_In in Hin. destruct Hin as (r & n & Ep & Hr & Hg & Hp).
    subst p. rewrite (H r n Hr Hg) in Hp. discriminate Hp.
Qed.

(** Destroying every match of a shallow test leaves no match. *)
Lemma find_all_decomposed (pred : node -> bool) (q : path) (d : node) :
  shallow pred ->
  find_all pred q (Noise.decompose_all (find_all pred q d) d) = [].
Proof.
  intros Hs. apply find_all_nil. intros r n Hr Hg.
  destruct (pred n) eqn:Hp; [|reflexivity].
  destruct (get_decompose_all_some _ _ _ Hg) as (n0 & H0 & E0).
  assert (In (q ++ r) (find_all pred q d)) as Hin.
  { apply find_all_In. exists r, n0. repeat split; try assumption.
    rewrite (Hs _ _ E0). exact Hp. }
  rewrite (get_decompose_all_In _ _ _ Hin) in Hg. discriminate Hg.
Qed.

(** No destruction makes a match. *)
Lemma find_all_nil_decompose (pred : node -> bool) (q x : path) (d : node) :
  shallow pred ->
  find_all pred q d = [] -> find_all pred q (decompose x d) = [].
Proof.
  intros Hs H. rewrite find_all_nil in *. intros r n Hr Hg.
  destruct (get_decompose_some _ _ _ Hg) as (n0 & H0 & E0).
  rewrite <- (Hs _ _ E0). exact (H r n0 Hr H0).
Qed.

Lemma find_all_nil_decompose_all (pred : node -> bool) (q : path)
    (ps : list path) :
  shallow pred ->
  forall d : node,
    find_all pred q d = [] -> find_all pred q (Noise.decompose_all ps d) = [].
Proof.
  intros Hs. unfold Noise.decompose_all.
  induction ps as [|x ps IH]; intros d H; cbn [fold_left]; [exact H|].
  apply IH, find_all_nil_decompose; assumption.
Qed.

Lemma find_all_nil_walk_up (pred : node -> bool) (q : path) (rp : list nat) :
  shallow pred ->
  forall d : node,
    find_all pred q d = [] -> find_all pred q (Noise.walk_up rp d) = [].
Proof.
  intros Hs. induction rp as [|i rp IH]; intros d H.
  - cbn [Noise.walk_up]. destruct (get (rev []) d); [|exact H].
    destruct (Noise.walk_cond _ n); [|exact H].
    apply find_all_nil_decompose; assumption.
  - cbn [Noise.walk_up]. destruct (get (rev (i :: rp)) d); [|exact H].
    destruct (Noise.walk_cond _ n); [|exact H].
    apply IH, find_all_nil_decompose; assumption.
Qed.

Lemma find_all_nil_walk_elements (pred : node -> bool) (q : path)
    (els : list path) :
  shallow pred ->
  forall d d' : node,
    Noise.walk_elements els d = Ok d' ->
    find_all pred q d = [] -> find_all pred q d' = [].
Proof.
  intros Hs. induction els as [|e els IH]; intros d d' Hw H.
  - cbn in Hw. inversion Hw; subst. exact H.
  - cbn [Noise.walk_elements] in Hw. destruct (get e d); [|discriminate Hw].
    apply (IH _ _ Hw), find_all_nil_walk_up; assumption.
Qed.

Lemma find_all_nil_text_pass (pred : node -> bool) (q : path)
    (pats : list string) :
  shallow pred ->
  forall d d' : node,
    Noise.text_pass pats d = Ok d' ->
    find_all pred q d = [] -> find_all pred q d' = [].
Proof.
  intros Hs. induction pats as [|pat pats IH]; intros d d' Hw H.
  - cbn in Hw. inversion Hw; subst. exact H.
  - cbn [Noise.text_pass] in Hw.
    destruct (Noise.walk_elements
                (find_all (Noise.text_matches pat) [] d) d) as [d1|e] eqn:E;
      [|discriminate Hw].
    cbn [bind] in Hw. apply (IH _ _ Hw).
    eapply find_all_nil_walk_elements; eassumption.
Qed.

(** A pass by patterns leaves no match of any of its patterns. *)
Lemma strip_by_clean (pred : string -> node -> bool) (pats : list string) :
  (forall pat, shallow (pred pat)) ->
  forall (d : node) (pat : string),
    In pat pats -> find_all (pred pat) [] (Noise.strip_by pred pats d) = [].
Proof.
  intros Hs. unfold Noise.strip_by.
  induction pats as [|x pats IH] using rev_ind; intros d pat Hin;
    [destruct Hin|].
  rewrite fold_left_app. cbn [fold_left].
  apply in_app_iff in Hin. destruct Hin as [Hin | [E|[]]].
  - apply find_all_nil_decompose_all; [apply Hs | apply IH, Hin].
  - subst x. apply find_all_decomposed, Hs.
Qed.

Lemma find_all_nil_strip_by (pred : node -> bool) (q : path)
    (pred' : string -> node -> bool) (pats : list string) :
  shallow pred ->
  forall d : node,
    find_all pred q d = [] -> find_all pred q (Noise.strip_by pred' pats d) = [].
Proof.
  intros Hs. unfold Noise.strip_by.
  induction pats as [|x pats IH]; intros d H; cbn [fold_left]; [exact H|].
  apply IH, find_all_nil_decompose_all; assumption.
Qed.

Lemma id_matches_shallow (pat : string) : shallow (Noise.id_matches pat).
Proof.
  intros n n' H. destruct n, n'; cbn in H; try tauto.
  destruct H as [? ?]. subst. reflexivity.
Qed.

Lemma class_matches_shallow (pat : string) : shallow (Noise.class_matches pat).
Proof.
  intros n n' H. destruct n, n'; cbn in H; try tauto.
  destruct H as [? ?]. subst. reflexivity.
Qed.

Lemma text_matches_shallow (pat : string) : shallow (Noise.text_matches pat).
Proof.
  intros n n' H. destruct n, n'; cbn in H; try tauto; subst; reflexivity.
Qed.

Lemma is_unwanted_shallow : shallow Locator.is_unwanted.
Proof.
  intros n n' H. destruct n, n'; cbn in H; try tauto.
  destruct H as [? ?]. subst. reflexivity.
Qed.

Lemma head_eq_name (n n' : node) : head_eq n n' -> name n = name n'.
Proof.
  destruct n, n'; cbn; tauto.
Qed.

Lemma above_refl (p : path) : above p p.
Proof. exists []. symmetry. apply app_nil_r. Qed.

Lemma above_nil (p : path) : above [] p.
Proof. exists p. reflexivity. Qed.

(** A live object that a [decompose] leaves dead is the destroyed one
    or lies below it. *)
Lemma get_decompose_dead (p : path) :
  forall (x : path) (d n : node),
    get p d = Some n -> get p (decompose x d) = None -> above x p.
Proof.
  induction p as [|i p IH]; intros x d n Hg Hd.
  - destruct x as [|j x]; [apply above_nil|].
    destruct d as [s|s|t a ks|]; cbn in Hg, Hd; discriminate.
  - destruct x as [|j x]; [apply above_nil|].
    destruct d as [s|s|t a ks|]; try discriminate Hg.
    cbn [decompose get] in *. rewrite nth_error_update in Hd.
    destruct (i =? j) eqn:Eij; [|congruence].
    apply Nat.eqb_eq in Eij. subst j.
    destruct (nth_error ks i) as [k|]; [|discriminate Hg].
    cbn [option_map] in Hd.
    destruct (IH _ _ _ Hg Hd) as [r Hr].
    exists r. cbn [app]. rewrite Hr. reflexivity.
Qed.

(** What is alive after a walk was alive before it, with the same tag
    and attributes, or the same text. *)
Lemma get_walk_up_some (rp : list nat) :
  forall (p : path) (d n : node),
    get p (Noise.walk_up rp d) = Some n ->
    exists n0 : node, get p d = Some n0 /\ head_eq n0 n.
Proof.
  induction rp as [|i rp IH]; intros p d n H; cbn [Noise.walk_up] in H.
  - destruct (get (rev []) d);
      [|exists n; split; [exact H | apply head_eq_refl]].
    destruct (Noise.walk_cond _ n0);
      [|exists n; split; [exact H | apply head_eq_refl]].
    apply get_decompose_some in H. exact H.
  - destruct (get (rev (i :: rp)) d);
      [|exists n; split; [exact H | apply head_eq_refl]].
    destruct (Noise.walk_cond _ n0);
      [|exists n; split; [exact H | apply head_eq_refl]].
    apply IH in H. destruct H as (n1 & H1 & E1).
    apply get_decompose_some in H1. destruct H1 as (n2 & H2 & E2).
    exists n2. split; [exact H2 | exact (head_eq_trans _ _ _ E2 E1)].
Qed.

Lemma get_walk_elements_some (els : list path) :
  forall (p : path) (d d' n : node),
    Noise.walk_elements els d = Ok d' ->
    get p d' = Some n ->
    exists n0 : node, get p d = Some n0 /\ head_eq n0 n.
Proof.
  induction els as [|e els IH]; intros p d d' n Hw H.
  - cbn in Hw. inversion Hw; subst.
    exists n. split; [exact H | apply head_eq_refl].
  - cbn [Noise.walk_elements] in Hw. destruct (get e d); [|discriminate Hw].
    destruct (IH _ _ _ _ Hw H) as (n1 & H1 & E1).
    apply get_walk_up_some in H1. destruct H1 as (n2 & H2 & E2).
    exists n2. split; [exact H2 | exact (head_eq_trans _ _ _ E2 E1)].
Qed.

(** What is dead stays dead through the loops of the text patterns. *)
Lemma get_none_walk_elements (els : list path) :
  forall (p : path) (d d' : node),
    Noise.walk_elements els d = Ok d' -> get p d = None -> get p d' = None.
Proof.
  induction els as [|e els IH]; intros p d d' Hw H.
  - cbn in Hw. inversion Hw; subst. exact H.
  - cbn [Noise.walk_elements] in Hw. destruct (get e d); [|discriminate Hw].
    apply (IH _ _ _ Hw), walk_up_keeps_none, H.
Qed.

Lemma get_none_text_pass (pats : list string) :
  forall (p : path) (d d' : node),
    Noise.text_pass pats d = Ok d' -> get p d = None -> get p d' = None.
Proof.
  induction pats as [|pat pats IH]; intros p d d' Hw H.
  - cbn in Hw. inversion Hw; subst. exact H.
  - cbn [Noise.text_pass] in Hw.
    destruct (Noise.walk_elements
                (find_all (Noise.text_matches pat) [] d) d) as [d1|e] eqn:E;
      [|discriminate Hw].
    cbn [bind] in Hw. apply (IH _ _ _ Hw).
    eapply get_none_walk_elements; eassumption.
Qed.

(** Whatever a walk takes away lies in an element it destroyed, whose
    tag is one of the four of line 238. *)
Lemma walk_up_removes (rp : list nat) :
  forall (d : node) (a : path) (n : node),
    get a d = Some n -> get a (Noise.walk_up rp d) = None ->
    exists (b : path) (nb : node),
      above b a /\ get b d = Some nb /\ In (name nb) Noise.walk_tags.
Proof.
  induction rp as [|i rp IH]; intros d a n Hg Hd; cbn [Noise.walk_up] in Hd.
  - destruct (get (rev []) d) as [n0|] eqn:Hn; [|congruence].
    destruct (Noise.walk_cond _ n0) eqn:Hc; [|congruence].
    exists [], n0. split; [apply above_nil|]. split; [exact Hn|].
    apply walk_cond_iff in Hc. apply Hc.
  - destruct (get (rev (i :: rp)) d) as [n0|] eqn:Hn; [|congruence].
    destruct (Noise.walk_cond _ n0) eqn:Hc; [|congruence].
    destruct (get a (decompose (rev (i :: rp)) d)) as [n1|] eqn:H1.
    + destruct (IH _ _ _ H1 Hd) as (b & nb & Hab & Hb & Ht).
      apply get_decompose_some in Hb. destruct Hb as (nb0 & Hb0 & E0).
      exists b, nb0. split; [exact Hab|]. split; [exact Hb0|].
      rewrite (head_eq_name _ _ E0). exact Ht.
    + exists (rev (i :: rp)), n0.
      split; [exact (get_decompose_dead _ _ _ Hg H1)|].
      split; [exact Hn|]. apply walk_cond_iff in Hc. apply Hc.
Qed.

Lemma walk_elements_removes (els : list path) :
  forall (d d' : node) (a : path) (n : node),
    Noise.walk_elements els d = Ok d' ->
    get a d = Some n -> get a d' = None ->
    exists (b : path) (nb : node),
      above b a /\ get b d = Some nb /\ In (name nb) Noise.walk_tags.
Proof.
  induction els as [|e els IH]; intros d d' a n Hw Hg Hd.
  - cbn in Hw. inversion Hw; subst. congruence.
  - cbn [Noise.walk_elements] in Hw. destruct (get e d); [|discriminate Hw].
    destruct (get a (Noise.walk_up (rev (parent e)) d)) as [n1|] eqn:H1.
    + destruct (IH _ _ _ _ Hw H1 Hd) as (b & nb & Hab & Hb & Ht).
      apply get_walk_up_some in Hb. destruct Hb as (nb0 & Hb0 & E0).
      exists b, nb0. split; [exact Hab|]. split; [exact Hb0|].
      rewrite (head_eq_name _ _ E0). exact Ht.
    + exact (walk_up_removes _ _ _ Hg H1).
Qed.

Lemma text_pass_removes (pats : list string) :
  forall (d d' : node) (a : path) (n : node),
    Noise.text_pass pats d = Ok d' ->
    get a d = Some n -> get a d' = None ->
    exists (b : path) (nb : node),
      above b a /\ get b d = Some nb /\ In (name nb) Noise.walk_tags.
Proof.
  induction pats as [|pat pats IH]; intros d d' a n Hw Hg Hd.
  - cbn in Hw. inversion Hw; subst. congruence.
  - cbn [Noise.text_pass] in Hw.
    destruct (Noise.walk_elements
                (find_all (Noise.text_matches pat) [] d) d) as [d1|e] eqn:E;
      [|discriminate Hw].
    cbn [bind] in Hw.
    destruct (get a d1) as [n1|] eqn:H1.
    + destruct (IH _ _ _ _ Hw H1 Hd) as (b & nb & Hab & Hb & Ht).
      destruct (get_walk_elements_some _ _ _ E Hb) as (nb0 & Hb0 & E0).
      exists b, nb0. split; [exact Hab|]. split; [exact Hb0|].
      rewrite (head_eq_name _ _ E0). exact Ht.
    + exact (walk_elements_removes _ _ _ E Hg H1).
Qed.

Lemma walk_elements_app (l1 l2 : list path) :
  forall d : node,
    Noise.walk_elements (l1 ++ l2) d =
    (d1 <- Noise.walk_elements l1 d ;; Noise.walk_elements l2 d1).
Proof.
  induction l1 as [|e l1 IH]; intros d; cbn [app Noise.walk_elements bind];
    [reflexivity|].
  destruct (get e d); [apply IH | reflexivity].
Qed.

(** A reference that a selection returns is alive. *)
Lemma select_alive (sel : selector) (d : node) (p : path) :
  In p (select sel d) -> exists n : node, get p d = Some n.
Proof.
  unfold select. rewrite in_map_iff. intros ((q, n) & E & Hin).
  cbn [fst] in E. subst q. apply filter_In in Hin. destruct Hin as [Hin _].
  apply descendants_get in Hin. exists n. apply Hin.
Qed.

(** What lies below a dead reference is dead. *)
Lemma get_below_none (a r : path) (d : node) :
  get a d = None -> get (a ++ r) d = None.
Proof. intros H. rewrite get_app, H. reflexivity. Qed.

End Destruction.

(** ** The selector engine *)

Section EngineFacts.

Variable E : engine.

(** When no query raises, the loops are those of the engine that answers
    every query. *)
Lemma cascade_r_ok (sels : list selector) :
  forall st st' : Locator.state,
    Locator.cascade_r E sels st = Ok st' -> st' = Locator.cascade sels st.
Proof.
  induction sels as [|sel sels IH]; intros [[d full] found] st' H;
    cbn [Locator.cascade_r Locator.cascade] in *.
  - inversion H. reflexivity.
  - unfold select_r in H. destruct (E sel d); [discriminate H|].
    cbn [bind] in H.
    destruct (Locator.scan_contents (select sel d) (d, full, found))
      as [[d1 full1] found1].
    destruct found1; [inversion H; reflexivity | apply IH, H].
Qed.

Lemma cascade_r_quiet (sels : list selector) :
  (forall sel d, E sel d = None) ->
  forall st : Locator.state,
    Locator.cascade_r E sels st = Ok (Locator.cascade sels st).
Proof.
  intros Hq. induction sels as [|sel sels IH]; intros [[d full] found];
    cbn [Locator.cascade_r Locator.cascade]; [reflexivity|].
  unfold select_r. rewrite Hq. cbn [bind].
  destruct (Locator.scan_contents (select sel d) (d, full, found))
    as [[d1 full1] found1].
  destruct found1; [reflexivity | apply IH].
Qed.

Lemma cascade_r_raises (sel : selector) (sels : list selector) (d : node)
    (full : list text) (found : bool) (e : string) :
  E sel d = Some e ->
  Locator.cascade_r E (sel :: sels) (d, full, found) = Raise e.
Proof.
  intros H. cbn [Locator.cascade_r]. unfold select_r. rewrite H. reflexivity.
Qed.

Lemma locate_r_ok (d : node) (st : Locator.state) :
  Locator.locate_r E d = Ok st -> Locator.locate d = st.
Proof. intros H. symmetry. exact (cascade_r_ok _ _ H). Qed.

Lemma title_loop_r_ok (sels : list selector) (d : node) (t t' : option text) :
  Meta.title_loop_r E sels d t = Ok t' -> t' = Meta.title_loop sels d t.
Proof.
  induction sels as [|sel sels IH];
    cbn [Meta.title_loop_r Meta.title_loop]; intros H.
  - inversion H. reflexivity.
  - unfold select_one_r in H. destruct (E sel d); [discriminate H|].
    cbn [bind] in H.
    destruct (select_one sel d); [inversion H; reflexivity | apply IH, H].
Qed.

Lemma date_loop_r_ok (sels : list selector) (d : node) (t' : option text) :
  Meta.date_loop_r E sels d = Ok t' -> t' = Meta.date_loop sels d.
Proof.
  induction sels as [|sel sels IH];
    cbn [Meta.date_loop_r Meta.date_loop]; intros H.
  - inversion H. reflexivity.
  - unfold select_one_r in H. destruct (E sel d); [discriminate H|].
    cbn [bind] in H.
    destruct (select_one sel d) as [p|]; [|apply IH, H].
    destruct (get p d) as [n|]; [|inversion H; reflexivity].
    destruct (attr "datetime" n); inversion H; reflexivity.
Qed.

Lemma authors_loop_r_ok (sels : list selector) (d : node) :
  forall l l' : list text,
    Meta.authors_loop_r E sels d l = Ok l' -> l' = Meta.authors_loop sels d l.
Proof.
  induction sels as [|sel sels IH]; intros l l';
    cbn [Meta.authors_loop_r Meta.authors_loop]; intros H.
  - inversion H. reflexivity.
  - unfold select_r in H. destruct (E sel d); [discriminate H|].
    cbn [bind] in H. apply IH, H.
Qed.

Lemma recover_r_ok (d : node) (ti da : option text) (au : list text) :
  Meta.recover_r E d = Ok (ti, da, au) ->
  ti = Meta.recover_title d /\ da = Meta.recover_date d /\
  au = Meta.recover_authors d.
Proof.
  unfold Meta.recover_r, Meta.recover_title_r, Meta.recover_date_r,
    Meta.recover_authors_r, Meta.recover_title, Meta.recover_date,
    Meta.recover_authors.
  intros H.
  destruct (if Meta.falsy (Meta.h1_title d)
            then Meta.title_loop_r E Meta.title_selectors d (Meta.h1_title d)
            else Ok (Meta.h1_title d)) as [t|e] eqn:Ht; [|discriminate H].
  cbn [bind] in H.
  destruct (Meta.date_loop_r E Meta.date_selectors d) as [t2|e] eqn:Hd;
    [|discriminate H].
  cbn [bind] in H.
  destruct (Meta.authors_loop_r E Meta.author_selectors d []) as [l|e] eqn:Ha;
    [|discriminate H].
  cbn [bind] in H. inversion H; subst.
  split; [|split].
  - destruct (Meta.falsy (Meta.h1_title d));
      [apply title_loop_r_ok, Ht | inversion Ht; reflexivity].
  - apply date_loop_r_ok, Hd.
  - apply authors_loop_r_ok, Ha.
Qed.

End EngineFacts.

Lemma title_loop_r_quiet (sels : list selector) (d : node) (t : option text) :
  Meta.title_loop_r quiet sels d t = Ok (Meta.title_loop sels d t).
Proof.
  induction sels as [|sel sels IH];
    cbn [Meta.title_loop_r Meta.title_loop]; [reflexivity|].
  unfold select_one_r, quiet. cbn [bind].
  destruct (select_one sel d); [reflexivity | apply IH].
Qed.

Lemma date_loop_r_quiet (sels : list selector) (d : node) :
  Meta.date_loop_r quiet sels d = Ok (Meta.date_loop sels d).
Proof.
  induction sels as [|sel sels IH];
    cbn [Meta.date_loop_r Meta.date_loop]; [reflexivity|].
  unfold select_one_r, quiet. cbn [bind].
  destruct (select_one sel d) as [p|]; [|apply IH].
  destruct (get p d) as [n|]; [|reflexivity].
  destruct (attr "datetime" n); reflexivity.
Qed.

Lemma authors_loop_r_quiet (sels : list selector) (d : node) :
  forall l : list text,
    Meta.authors_loop_r quiet sels d l = Ok (Meta.authors_loop sels d l).
Proof.
  induction sels as [|sel sels IH]; intros l;
    cbn [Meta.authors_loop_r Meta.authors_loop]; [reflexivity|].
  unfold select_r, quiet. cbn [bind]. apply IH.
Qed.

(** With an engine that answers every query, the loops that can raise
    are the loops that cannot. *)
Lemma recover_r_quiet (d : node) :
  Meta.recover_r quiet d
  = Ok (Meta.recover_title d, Meta.recover_date d, Meta.recover_authors d).
Proof.
  unfold Meta.recover_r, Meta.recover_title_r, Meta.recover_date_r,
    Meta.recover_authors_r, Meta.recover_title, Meta.recover_date,
    Meta.recover_authors.
  rewrite date_loop_r_quiet, authors_loop_r_quiet.
  destruct (Meta.falsy (Meta.h1_title d));
    [rewrite title_loop_r_quiet|]; reflexivity.
Qed.

Lemma locate_r_quiet (d : node) :
  Locator.locate_r quiet d = Ok (Locator.locate d).
Proof. apply cascade_r_quiet. reflexivity. Qed.

(** ** The Orchestrator *)

Section OrchestratorFacts.

Variable C : collaborators.

(** The second cleaning and the parse of line 59, on markup that is not
    empty. *)
Lemma remove_overlays_cons (c : ascii) (h : text) :
  remove_overlays_and_clean_content C (Some (c :: h)) =
  (soup <- parse C (c :: h) ;;
   d <- Noise.strip_noise soup ;;
   s <- render C d ;;
   Ok (Some s)).
Proof. reflexivity. Qed.

(** What a successful record is made of. *)
Lemma extract_article_success_inv (url use_proxy language : string)
    (u : string) (ti : option text) (tx : text) (au : list text)
    (da : option text) (me : string) :
  extract_article C url use_proxy language = Success u ti tx au da me ->
  exists (response : option text) (cleaned_html : text) (soup0 soup1 : node)
         (found : list text) (flag : bool) (full_content : list text),
    fetch C url use_proxy = Ok response /\ Meta.falsy response = false /\
    remove_overlays_and_clean_content C (Some (clean_input_text response))
      = Ok (Some cleaned_html) /\
    parse C cleaned_html = Ok soup0 /\
    Locator.locate_r (select_raises C) soup0 = Ok (soup1, found, flag) /\
    Locator.locate soup0 = (soup1, found, flag) /\
    fallback C url language cleaned_html found flag = Ok full_content /\
    full_content <> [] /\
    u = url /\ me = use_proxy /\
    tx = clean_text (Noise.join para full_content) /\
    Meta.recover_r (select_raises C) soup1 = Ok (ti, da, au) /\
    ti = Meta.recover_title soup1 /\
    au = Meta.recover_authors soup1 /\
    da = Meta.recover_date soup1.
Proof.
  unfold extract_article, extract_body.
  destruct (fetch C url use_proxy) as [response|e] eqn:Hf; cbn [bind];
    [|discriminate].
  destruct (Meta.falsy response) eqn:Hr; [discriminate|].
  destruct (remove_overlays_and_clean_content C
              (Some (clean_input_text response))) as [[h|]|e] eqn:Hc;
    cbn [bind]; try discriminate.
  destruct (parse C h) as [d0|e] eqn:Hp; cbn [bind]; [|discriminate].
  destruct (Locator.locate_r (select_raises C) d0) as [[[d1 full] found]|e]
    eqn:Hl; cbn [bind]; [|discriminate].
  destruct (fallback C url language h full found) as [full'|e] eqn:Hb;
    cbn [bind]; [|discriminate].
  destruct full' as [|b bs] eqn:Hfull; [discriminate|].
  destruct (Meta.recover_r (select_raises C) d1) as [[[ti' da'] au']|e]
    eqn:Hm; cbn [bind]; [|discriminate].
  intros H. inversion H; subst.
  destruct (recover_r_ok _ _ Hm) as (Eti & Eda & Eau).
  exists response, h, d0, d1, full, found, (b :: bs).
  repeat split; try assumption; try reflexivity.
  - apply locate_r_ok in Hl. exact Hl.
  - discriminate.
Qed.

(** The record, once the markup is fetched, cleaned, parsed and
    searched. *)
Lemma extract_article_located (url use_proxy language : string)
    (r : option text) (html : text) (d0 d1 : node) (full : list text)
    (flag : bool) :
  fetch C url use_proxy = Ok r -> Meta.falsy r = false ->
  remove_overlays_and_clean_content C (Some (clean_input_text r))
    = Ok (Some html) ->
  parse C html = Ok d0 ->
  Locator.locate_r (select_raises C) d0 = Ok (d1, full, flag) ->
  extract_article C url use_proxy language =
  match fallback C url language html full flag with
  | Ok [] => Failure url "No content found"
  | Ok (b :: bs) =>
      match Meta.recover_r (select_raises C) d1 with
      | Ok (title, date, authors) =>
          Success url title (clean_text (Noise.join para (b :: bs)))
            authors date use_proxy
      | Raise e => Failure url e
      end
  | Raise e => Failure url e
  end.
Proof.
  intros Hf Hr Hc Hp Hl.
  unfold extract_article, extract_body.
  rewrite Hf. cbn [bind]. rewrite Hr, Hc. cbn [bind]. rewrite Hp. cbn [bind].
  rewrite Hl. cbn [bind].
  destruct (fallback C url language html full flag) as [[|b bs]|e];
    cbn [bind]; try reflexivity.
  destruct (Meta.recover_r (select_raises C) d1) as [[[ti da] au]|e];
    reflexivity.
Qed.

Lemma extract_article_url (url use_proxy language : string) :
  result_url (extract_article C url use_proxy language) = url.
Proof.
  unfold extract_article, extract_body.
  destruct (fetch C url use_proxy) as [response|e]; cbn [bind];
    [|reflexivity].
  destruct (Meta.falsy response); [reflexivity|].
  destruct (remove_overlays_and_clean_content C
              (Some (clean_input_text response))) as [[h|]|e];
    cbn [bind]; try reflexivity.
  destruct (parse C h) as [d0|e]; cbn [bind]; [|reflexivity].
  destruct (Locator.locate_r (select_raises C) d0) as [[[d1 full] found]|e];
    cbn [bind]; [|reflexivity].
  destruct (fallback C url language h full found) as [[|b bs]|e];
    cbn [bind]; try reflexivity.
  destruct (Meta.recover_r (select_raises C) d1) as [[[ti da] au]|e];
    reflexivity.
Qed.

(** An exception of the body before the parse of line 59. *)
Lemma extract_article_cleaning_raises (url use_proxy language : string)
    (r : option text) (e : string) :
  fetch C url use_proxy = Ok r -> Meta.falsy r = false ->
  remove_overlays_and_clean_content C (Some (clean_input_text r)) = Raise e ->
  extract_article C url use_proxy language = Failure url e.
Proof.
  intros Hf Hr Hc. unfold extract_article, extract_body.
  rewrite Hf. cbn [bind]. rewrite Hr, Hc. reflexivity.
Qed.

Lemma fetch_invalid (url use_proxy : string) :
  use_proxy <> "oxylabs"%string -> use_proxy <> "zyte"%string ->
  fetch C url use_proxy = Raise ("Invalid proxy provider: " ++ use_proxy)%string.
Proof.
  intros H1 H2. unfold fetch.
  apply String.eqb_neq in H1, H2. rewrite H1, H2. reflexivity.
Qed.

Lemma fetch_valid (url use_proxy : string) :
  use_proxy = "oxylabs"%string \/ use_proxy = "zyte"%string ->
  exists r, fetch C url use_proxy = Ok r.
Proof.
  intros [H|H]; subst; unfold fetch; cbn [String.eqb]; eexists; reflexivity.
Qed.

End OrchestratorFacts.

(** * The claims of the specification *)

Unset Implicit Arguments.

(** C1.  [extract_article] returns one record for every url, provider
    and language and whatever its collaborators do, and the record
    carries the url.  An exception at any point of the body becomes the
    record [{url, error: str(e)}]: an unsupported provider, with the
    error "Invalid proxy provider: ..."; the parser, the Noise Stripper
    or the printer in the second cleaning (lines 191, 236-241, 243); the
    parser at line 59; the selector engine in the cascade (line 94); the
    generic extractor; the selector engine in the recovery of the
    metadata (lines 137, 151, 165).  A fetcher turns an exception of its
    request into no reply, and no reply gives the record with the error
    "No response from proxy". *)
Theorem extract_article_never_raises (C : collaborators)
    (url use_proxy language : string) :
  result_url (extract_article C url use_proxy language) = url /\
  (use_proxy <> "oxylabs"%string -> use_proxy <> "zyte"%string ->
     extract_article C url use_proxy language
     = Failure url ("Invalid proxy provider: " ++ use_proxy)%string) /\
  (use_proxy = "oxylabs"%string \/ use_proxy = "zyte"%string ->
     exists r, fetch C url use_proxy = Ok r) /\
  (forall e, zyte_browser_html C url = Raise e ->
     extract_article C url "zyte" language
     = Failure url "No response from proxy") /\
  (forall e, oxylabs_query C (with_scheme url) = Raise e ->
     extract_article C url "oxylabs" language
     = Failure url "No response from proxy") /\
  (forall r, fetch C url use_proxy = Ok r -> Meta.falsy r = true ->
     extract_article C url use_proxy language
     = Failure url "No response from proxy") /\
  (forall r c h, fetch C url use_proxy = Ok r -> Meta.falsy r = false ->
     clean_input_text r = c :: h ->
     (forall e, parse C (c :: h) = Raise e ->
        extract_article C url use_proxy language = Failure url e) /\
     (forall s e, parse C (c :: h) = Ok s -> Noise.strip_noise s = Raise e ->
        extract_article C url use_proxy language = Failure url e) /\
     (forall s d e, parse C (c :: h) = Ok s -> Noise.strip_noise s = Ok d ->
        render C d = Raise e ->
        extract_article C url use_proxy language = Failure url e)) /\
  (forall r html, fetch C url use_proxy = Ok r -> Meta.falsy r = false ->
     remove_overlays_and_clean_content C (Some (clean_input_text r))
       = Ok (Some html) ->
     (forall e, parse C html = Raise e ->
        extract_article C url use_proxy language = Failure url e) /\
     (forall d0 e, parse C html = Ok d0 ->
        select_raises C [STag "article"] d0 = Some e ->
        extract_article C url use_proxy language = Failure url e) /\
     (forall d0 e, parse C html = Ok d0 ->
        Locator.locate_r (select_raises C) d0 = Raise e ->
        extract_article C url use_proxy language = Failure url e) /\
     (forall d0 d1 full e, parse C html = Ok d0 ->
        Locator.locate_r (select_raises C) d0 = Ok (d1, full, false) ->
        article_text C url language html = Raise e ->
        extract_article C url use_proxy language = Failure url e) /\
     (forall d0 d1 full flag b bs e, parse C html = Ok d0 ->
        Locator.locate_r (select_raises C) d0 = Ok (d1, full, flag) ->
        fallback C url language html full flag = Ok (b :: bs) ->
        Meta.recover_r (select_raises C) d1 = Raise e ->
        extract_article C url use_proxy language = Failure url e)).
Proof.
  split; [apply extract_article_url|].
  split.
  { intros H1 H2. unfold extract_article, extract_body.
    rewrite fetch_invalid by assumption. reflexivity. }
  split; [apply fetch_valid|].
  split.
  { intros e H. unfold extract_article, extract_body, fetch, f_zyte_proxy.
    cbn [String.eqb Ascii.eqb Bool.eqb]. rewrite H. reflexivity. }
  split.
  { intros e H. unfold extract_article, extract_body, fetch, f_oxylabs_proxy.
    cbn [String.eqb Ascii.eqb Bool.eqb]. rewrite H. reflexivity. }
  split.
  { intros r Hf Hr. unfold extract_article, extract_body.
    rewrite Hf. cbn [bind]. rewrite Hr. reflexivity. }
  split.
  { intros r c h Hf Hr Hc. split; [|split].
    - intros e Hp.
      apply (@extract_article_cleaning_raises C url use_proxy language r e Hf Hr).
      rewrite Hc, remove_overlays_cons, Hp. reflexivity.
    - intros s e Hp Hs.
      apply (@extract_article_cleaning_raises C url use_proxy language r e Hf Hr).
      rewrite Hc, remove_overlays_cons, Hp. cbn [bind]. rewrite Hs.
      reflexivity.
    - intros s d e Hp Hs Hd.
      apply (@extract_article_cleaning_raises C url use_proxy language r e Hf Hr).
      rewrite Hc, remove_overlays_cons, Hp. cbn [bind]. rewrite Hs.
      cbn [bind]. rewrite Hd. reflexivity. }
  intros r html Hf Hr Hc.
  assert (Hl : forall d0 e, parse C html = Ok d0 ->
                 Locator.locate_r (select_raises C) d0 = Raise e ->
                 extract_article C url use_proxy language = Failure url e).
  { intros d0 e Hp Hl. unfold extract_article, extract_body.
    rewrite Hf. cbn [bind]. rewrite Hr, Hc. cbn [bind]. rewrite Hp.
    cbn [bind]. rewrite Hl. reflexivity. }
  split; [|split; [|split; [exact Hl | split]]].
  - intros e Hp. unfold extract_article, extract_body.
    rewrite Hf. cbn [bind]. rewrite Hr, Hc. cbn [bind]. rewrite Hp.
    reflexivity.
  - intros d0 e Hp He. apply (Hl d0 e Hp).
    unfold Locator.locate_r. apply cascade_r_raises, He.
  - intros d0 d1 full e Hp Hl' Ha.
    rewrite (@extract_article_located C url use_proxy language r html d0 d1
               full false Hf Hr Hc Hp Hl').
    unfold fallback. rewrite Ha. reflexivity.
  - intros d0 d1 full flag b bs e Hp Hl' Hb Hm.
    rewrite (@extract_article_located C url use_proxy language r html d0 d1
               full flag Hf Hr Hc Hp Hl').
    rewrite Hb, Hm. reflexivity.
Qed.

Lemma extract_article_never_raises_witness :
  extract_article (fixed doc_main (T "<html>") (Ok [])) "u" "tor" "en"
  = Failure "u" "Invalid proxy provider: tor" /\
  extract_article
    (with_parser (fixed doc_main (T " <html>") (Ok []))
       (parser_from (fun t => negb (hd_ok t)) doc_main "bad markup"))
    "u" "zyte" "en"
  = Failure "u" "bad markup" /\
  extract_article
    (with_printer
       (with_parser (fixed doc_main (T "<html>") (Ok []))
          (parser_from hd_ok doc_main "bad markup"))
       (fun _ => Ok (T " <p>")))
    "u" "zyte" "en"
  = Failure "u" "bad markup" /\
  extract_article
    (with_engine (fixed doc_main (T "<html>") (Ok []))
       (raises_on [STag "article"] "bad selector"))
    "u" "zyte" "en"
  = Failure "u" "bad selector" /\
  extract_article
    (with_engine (fixed doc_main (T "<html>") (Ok []))
       (raises_on [SAttr "itemprop" "datePublished"] "bad selector"))
    "u" "zyte" "en"
  = Failure "u" "bad selector".
Proof.
  split; [|split; [|split; [|split]]].
  - apply (extract_article_never_raises
             (fixed doc_main (T "<html>") (Ok [])) "u" "tor" "en");
      discriminate.
  - pose proof (extract_article_never_raises
                  (with_parser (fixed doc_main (T " <html>") (Ok []))
                     (parser_from (fun t => negb (hd_ok t)) doc_main
                        "bad markup"))
                  "u" "zyte" "en") as (_ & _ & _ & _ & _ & _ & H & _).
    apply (H (Some (T " <html>")) "<"%char (T "html>"));
      vm_compute; reflexivity.
  - pose proof (extract_article_never_raises
                  (with_printer
                     (with_parser (fixed doc_main (T "<html>") (Ok []))
                        (parser_from hd_ok doc_main "bad markup"))
                     (fun _ => Ok (T " <p>")))
                  "u" "zyte" "en") as (_ & _ & _ & _ & _ & _ & _ & H).
    apply (H (Some (T " <p>")) (T " <p>")); vm_compute; reflexivity.
  - pose proof (extract_article_never_raises
                  (with_engine (fixed doc_main (T "<html>") (Ok []))
                     (raises_on [STag "article"] "bad selector"))
                  "u" "zyte" "en") as (_ & _ & _ & _ & _ & _ & _ & H).
    apply (proj1 (proj2 (H (Some (T "<html>")) (T "<html>")
                           eq_refl eq_refl eq_refl)) doc_main);
      reflexivity.
  - pose proof (extract_article_never_raises
                  (with_engine (fixed doc_main (T "<html>") (Ok []))
                     (raises_on [SAttr "itemprop" "datePublished"]
                        "bad selector"))
                  "u" "zyte" "en") as (_ & _ & _ & _ & _ & _ & _ & H).
    apply (proj2 (proj2 (proj2 (proj2
             (H (Some (T "<html>")) (T "<html>") eq_refl eq_refl eq_refl))))
             doc_main doc_main [T prose] true (T prose) []);
      vm_compute; reflexivity.
Defined.

(** C2.  The normalizer does not keep a blank line: on the text
    [one\n \n\ntwo] its first substitution writes the blank line
    [one\n\ntwo], and its second substitution, [\s+] to one space, turns
    that blank line into a space; the result is [one two]. *)
Theorem clean_text_loses_blank_line :
  re_sub match_blank [nl; nl]
    (T ("one" ++ LF ++ " " ++ LF ++ LF ++ "two")%string)
  = T ("one" ++ LF ++ LF ++ "two")%string /\
  clean_text (T ("one" ++ LF ++ " " ++ LF ++ LF ++ "two")%string)
  = T "one two" /\
  clean_text (T ("one" ++ LF ++ LF ++ "two")%string) = T "one two".
Proof. repeat split; vm_compute; reflexivity. Qed.

(** C3.  The normalizer is not idempotent.  Its pass on whitespace comes
    before its removal of the phrases, so a phrase that stood between two
    spaces leaves the two spaces behind, and only a second run makes one
    of them: on [a read more b] the normalizer gives [a  b], and on that
    it gives [a b]. *)
Theorem clean_text_not_idempotent :
  clean_text (T "a read more b") = T "a  b" /\
  clean_text (clean_text (T "a read more b")) = T "a b" /\
  clean_text (clean_text (T "a read more b"))
  <> clean_text (T "a read more b").
Proof.
  split; [vm_compute; reflexivity|].
  split; [vm_compute; reflexivity|].
  vm_compute. discriminate.
Qed.

(** C4, as stated, fails: the locator can return nothing on a document
    in which a lower tier, run by itself, yields an accepted block.  In
    [<article>Short teaser.<form><main>...</main></form></article>] the
    tier [article] destroys the form, and [main] with it, before the tier
    [main] is reached. *)
Lemma locate_misses_destroyed_tier :
  ~ (forall (d : node) (sel : selector),
       In sel Locator.content_selectors ->
       found_of (tier sel d) = true ->
       blocks_of (Locator.locate d) <> []).
Proof.
  intros H.
  apply (H doc_form [STag "main"]).
  - vm_compute. tauto.
  - vm_compute. reflexivity.
  - vm_compute. reflexivity.
Qed.

(** C4, amended.  A block is accepted if and only if its normalized
    text is longer than 100 characters; the blocks a tier yields are the
    accepted ones among the texts of its matches; a tier that accepts
    nothing does not stop the cascade, which goes on from the soup as
    that tier left it; the locator does not return empty when a lower
    tier yields an accepted block on the soup as the tiers before it left
    it; an element that lies in a script, style, iframe, noscript or
    form element of a match is destroyed with it: from then on it is
    gone, it has no text and no selector matches it; and this cascade is
    the one that runs, whenever the selector engine raises on no query
    of it. *)
Theorem cascade_falls_through :
  (forall t : text, Locator.accepted t = true <-> 100 < List.length t) /\
  (forall (sel : selector) (d : node),
     blocks_of (tier sel d)
     = filter (fun t => 100 <? List.length t) (scan_texts (select sel d) d)) /\
  (forall (sel : selector) (sels : list selector) (d : node),
     found_of (tier sel d) = false ->
     blocks_of (tier sel d) = [] /\
     Locator.cascade (sel :: sels) (d, [], false)
     = Locator.cascade sels (soup_of (tier sel d), [], false)) /\
  (forall (pre post : list selector) (sel : selector) (d d1 : node),
     Locator.cascade pre (d, [], false) = (d1, [], false) ->
     found_of (tier sel d1) = true ->
     found_of (Locator.cascade (pre ++ sel :: post) (d, [], false)) = true /\
     blocks_of (Locator.cascade (pre ++ sel :: post) (d, [], false)) <> []) /\
  (forall (c0 u c : path) (d : node) (later : list path),
     In u (find_all Locator.is_unwanted c0 d) -> above u c ->
     get c (Noise.decompose_all later (Locator.strip_unwanted c0 d)) = None /\
     Locator.block c (Noise.decompose_all later (Locator.strip_unwanted c0 d))
     = [] /\
     forall sel : selector,
       ~ In c (select sel
                 (Noise.decompose_all later (Locator.strip_unwanted c0 d)))) /\
  (forall (E : engine) (d : node) (st : Locator.state),
     Locator.locate_r E d = Ok st -> st = Locator.locate d).
Proof.
  split; [exact accepted_iff|].
  split.
  { intros sel d. unfold tier. rewrite scan_contents_blocks.
    apply filter_ext. exact accepted_ltb. }
  split.
  { intros sel sels d H. split; [apply tier_miss_blocks, H|].
    rewrite cascade_cons, H. reflexivity. }
  split.
  { intros pre post sel d d1 Hpre Hhit.
    rewrite (@cascade_first_hit pre post sel d d1 Hpre Hhit).
    split; [exact Hhit | apply tier_found_iff, Hhit]. }
  split; [|intros E d st H; symmetry; exact (locate_r_ok E d H)].
  intros c0 u c d later Hin [r Hr].
  assert (Hg : get c (Noise.decompose_all later (Locator.strip_unwanted c0 d))
               = None).
  { apply get_none_decompose_all. subst c. apply get_below_none.
    unfold Locator.strip_unwanted. apply get_decompose_all_In, Hin. }
  set (d' := Noise.decompose_all later (Locator.strip_unwanted c0 d)) in *.
  split; [exact Hg|]. split.
  - assert (Es : Locator.strip_unwanted c d' = d').
    { unfold Locator.strip_unwanted, find_all. rewrite Hg. reflexivity. }
    unfold Locator.block. rewrite Es. unfold text_at. rewrite Hg.
    reflexivity.
  - intros sel Hsel. apply select_alive in Hsel.
    destruct Hsel as [n Hn]. congruence.
Qed.

Lemma cascade_falls_through_witness :
  (found_of (Locator.locate doc_short_first) = true /\
   blocks_of (Locator.locate doc_short_first) <> []) /\
  get [0; 1; 0] (Noise.decompose_all [] (Locator.strip_unwanted [0] doc_form))
  = None.
Proof.
  split.
  - apply (proj1 (proj2 (proj2 (proj2 cascade_falls_through)))
             (firstn 15 Locator.content_selectors)
             (skipn 16 Locator.content_selectors)
             [STag "main"] doc_short_first doc_short_first);
      vm_compute; reflexivity.
  - apply (proj1 (proj2 (proj2 (proj2 (proj2 cascade_falls_through))))
             [0] [0; 1] [0; 1; 0] doc_form []).
    + vm_compute. left. reflexivity.
    + exists [0]. reflexivity.
Defined.

(** C5, as stated, fails: the first tier that has an accepted block in
    the document need not be the one whose blocks are returned.  In
    [<article>Short teaser.<form><div itemprop="articleBody">...</div>
    </form></article><div class="article-content">...</div>] the tiers
    [[itemprop="articleBody"]] and [.article-content] each hold a block
    of more than 100 characters, and the result is the block of the
    later one: the tier [article] destroyed the form. *)
Lemma first_tier_shadowed :
  ~ (forall (d : node) (sel sel' : selector),
       first_yielding Locator.content_selectors d = Some sel ->
       In sel' Locator.content_selectors -> sel' <> sel ->
       found_of (tier sel' d) = true ->
       blocks_of (Locator.locate d) = blocks_of (tier sel d)).
Proof.
  intros H.
  specialize (H doc_shadow [SAttr "itemprop" "articleBody"]
                [SClass "article-content"]).
  assert (E : blocks_of (Locator.locate doc_shadow)
              = blocks_of (tier [SAttr "itemprop" "articleBody"] doc_shadow)).
  { apply H.
    - vm_compute. reflexivity.
    - vm_compute. tauto.
    - discriminate.
    - vm_compute. reflexivity. }
  vm_compute in E. discriminate E.
Qed.

(** C5, amended.  The cascade returns the state of the first tier that
    yields an accepted block on the soup as the tiers before it left it:
    [full_content] holds the accepted blocks of that tier and nothing
    else, whatever the later tiers are and whatever they would yield;
    and so does the cascade as it runs, whenever the selector engine
    raises on no query of it. *)
Theorem first_tier_wins (pre post : list selector) (sel : selector)
    (d d1 : node) :
  Locator.cascade pre (d, [], false) = (d1, [], false) ->
  found_of (tier sel d1) = true ->
  Locator.cascade (pre ++ sel :: post) (d, [], false) = tier sel d1 /\
  blocks_of (Locator.cascade (pre ++ sel :: post) (d, [], false))
  = filter Locator.accepted (scan_texts (select sel d1) d1) /\
  (forall post' : list selector,
     Locator.cascade (pre ++ sel :: post') (d, [], false)
     = Locator.cascade (pre ++ sel :: post) (d, [], false)) /\
  (forall (E : engine) (st : Locator.state),
     Locator.cascade_r E (pre ++ sel :: post) (d, [], false) = Ok st ->
     st = tier sel d1).
Proof.
  intros Hpre Hhit.
  rewrite (@cascade_first_hit pre post sel d d1 Hpre Hhit).
  split; [reflexivity|]. split; [|split].
  - unfold tier. apply scan_contents_blocks.
  - intros post'. apply cascade_first_hit; assumption.
  - intros E st H. apply cascade_r_ok in H. rewrite H.
    apply cascade_first_hit; assumption.
Qed.

(** In [<main>...</main><article>...</article>] the tiers [article] and
    [main] each yield a block; the block of [main], the later tier, is
    left out. *)
Lemma first_tier_wins_witness :
  (In [STag "main"] (tl Locator.content_selectors) /\
   blocks_of (tier [STag "main"] doc_two_tiers) = [T prose2]) /\
  (Locator.cascade ([] ++ [STag "article"] :: tl Locator.content_selectors)
     (doc_two_tiers, [], false)
   = tier [STag "article"] doc_two_tiers /\
   blocks_of
     (Locator.cascade ([] ++ [STag "article"] :: tl Locator.content_selectors)
        (doc_two_tiers, [], false))
   = filter Locator.accepted
       (scan_texts (select [STag "article"] doc_two_tiers) doc_two_tiers)) /\
  filter Locator.accepted
    (scan_texts (select [STag "article"] doc_two_tiers) doc_two_tiers)
  = [T prose].
Proof.
  split; [split; [vm_compute; tauto | vm_compute; reflexivity]|].
  split; [|vm_compute; reflexivity].
  pose proof (first_tier_wins [] (tl Locator.content_selectors)
                [STag "article"] doc_two_tiers doc_two_tiers) as H.
  destruct H as (H1 & H2 & _); [reflexivity | vm_compute; reflexivity|].
  split; [exact H1 | exact H2].
Defined.

(** C6, as stated, fails: an ancestor of a string that matches a pattern
    can have a tag of the set and a short text and stay.  In
    [<button><span>Read More</span></button>] the walk starts at the
    [span], whose tag is not in the set, and stops there: the three
    passes leave the document as it was, and the button in it. *)
Lemma walk_spares_button_ancestor :
  ~ (forall (d d' : node) (e a : path) (s pat : string) (n : node),
       Noise.strip_noise d = Ok d' ->
       get e d = Some (Text s) ->
       In pat Noise.text_patterns ->
       Noise.text_matches pat (Text s) = true ->
       above a (parent e) ->
       get a d = Some n ->
       (get a d' = None <-> Noise.walk_cond (encl_at a d) n = true)).
Proof.
  intros H.
  specialize (H doc_button_span doc_button_span [0; 0; 0] [0]
                "Read More"%string "read more"%string
                (Elem "button" [] [Elem "span" [] [Text "Read More"]])).
  assert (E : get [0] doc_button_span = None).
  { apply H.
    - vm_compute. reflexivity.
    - reflexivity.
    - vm_compute. tauto.
    - vm_compute. reflexivity.
    - exists [0]. reflexivity.
    - reflexivity.
    - vm_compute. reflexivity. }
  vm_compute in E. discriminate E.
Qed.

(** C6, amended.  For each string that matches a pattern, in document
    order, the text-pattern pass walks up from the parent of the string.
    The walk tests the element it has reached: the test holds if and
    only if the tag is one of button, a, div, section and the text of
    the element, as it is at that moment, is shorter than 1000
    characters.  If the test holds, the element is destroyed and the walk
    goes on from its former parent; if not, the walk stops and the pass
    goes to the next match.  So when the loop reaches a match that is
    still there: if the test fails on its parent, nothing is destroyed
    for this match; if it holds, the parent is destroyed and is gone at
    the end of the pass.  A section with a text of 1000 characters or
    more is not removed, and a button with a shorter text is removed. *)
Theorem walk_deletes_while (pat : string) (pats : list string)
    (l1 l2 : list path) (e : path) (d d1 n : node) :
  find_all (Noise.text_matches pat) [] d = l1 ++ e :: l2 ->
  Noise.walk_elements l1 d = Ok d1 ->
  get e d1 <> None ->
  get (parent e) d1 = Some n ->
  (Noise.walk_cond (encl_at (parent e) d1) n = true <->
   In (name n) ["button"; "a"; "div"; "section"]%string /\
   List.length (get_text (encl_at (parent e) d1) n) < 1000) /\
  (forall (rp : list nat) (d2 m : node),
     get (rev rp) d2 = Some m ->
     Noise.walk_up rp d2 =
     if Noise.walk_cond (encl_at (rev rp) d2) m
     then Noise.walk_up (tl rp) (decompose (rev rp) d2)
     else d2) /\
  (Noise.walk_cond (encl_at (parent e) d1) n = false ->
   Noise.text_pass (pat :: pats) d =
   (d2 <- Noise.walk_elements l2 d1 ;; Noise.text_pass pats d2)) /\
  (Noise.walk_cond (encl_at (parent e) d1) n = true ->
   Noise.text_pass (pat :: pats) d =
   (d2 <- Noise.walk_elements l2
            (Noise.walk_up (tl (rev (parent e))) (decompose (parent e) d1)) ;;
    Noise.text_pass pats d2) /\
   forall d' : node,
     Noise.text_pass (pat :: pats) d = Ok d' -> get (parent e) d' = None) /\
  (name n = "section"%string ->
   1000 <= List.length (get_text (encl_at (parent e) d1) n) ->
   Noise.text_pass (pat :: pats) d =
   (d2 <- Noise.walk_elements l2 d1 ;; Noise.text_pass pats d2)) /\
  (name n = "button"%string ->
   List.length (get_text (encl_at (parent e) d1) n) < 1000 ->
   forall d' : node,
     Noise.text_pass (pat :: pats) d = Ok d' -> get (parent e) d' = None).
Proof.
  intros Hfind Hl1 He Hn.
  assert (Hpass : Noise.text_pass (pat :: pats) d =
                  (d2 <- Noise.walk_elements l2
                           (Noise.walk_up (rev (parent e)) d1) ;;
                   Noise.text_pass pats d2)).
  { cbn [Noise.text_pass]. rewrite Hfind, walk_elements_app, Hl1.
    cbn [bind Noise.walk_elements].
    destruct (get e d1); [reflexivity | contradiction]. }
  assert (Hwalk : Noise.walk_up (rev (parent e)) d1 =
                  if Noise.walk_cond (encl_at (parent e) d1) n
                  then Noise.walk_up (tl (rev (parent e)))
                         (decompose (parent e) d1)
                  else d1).
  { rewrite walk_up_eq, rev_involutive, Hn. reflexivity. }
  assert (Hno : Noise.walk_cond (encl_at (parent e) d1) n = false ->
                Noise.text_pass (pat :: pats) d =
                (d2 <- Noise.walk_elements l2 d1 ;; Noise.text_pass pats d2)).
  { intros Hc. rewrite Hpass, Hwalk, Hc. reflexivity. }
  assert (Hyes : Noise.walk_cond (encl_at (parent e) d1) n = true ->
                 Noise.text_pass (pat :: pats) d =
                 (d2 <- Noise.walk_elements l2
                          (Noise.walk_up (tl (rev (parent e)))
                             (decompose (parent e) d1)) ;;
                  Noise.text_pass pats d2) /\
                 forall d' : node,
                   Noise.text_pass (pat :: pats) d = Ok d' ->
                   get (parent e) d' = None).
  { intros Hc. rewrite Hpass, Hwalk, Hc. split; [reflexivity|].
    intros d' Hd'.
    destruct (Noise.walk_elements l2
                (Noise.walk_up (tl (rev (parent e)))
                   (decompose (parent e) d1))) as [d2|x] eqn:E2;
      [|discriminate Hd'].
    cbn [bind] in Hd'.
    apply (get_none_text_pass _ _ _ Hd').
    apply (get_none_walk_elements _ _ _ E2).
    apply walk_up_keeps_none, get_decompose_self. }
  split; [apply walk_cond_iff|].
  split.
  { intros rp d2 m Hm. rewrite walk_up_eq, Hm. reflexivity. }
  split; [exact Hno|].
  split; [exact Hyes|].
  split.
  - intros Ht Hlen. apply Hno.
    destruct (Noise.walk_cond (encl_at (parent e) d1) n) eqn:Hc;
      [|reflexivity].
    apply walk_cond_iff in Hc. lia.
  - intros Ht Hlen. apply Hyes. apply walk_cond_iff.
    split; [|exact Hlen]. rewrite Ht. cbn. tauto.
Qed.

(** In [<p>Story.</p><button>Read More</button>] the pass of the
    pattern [read more] and of those after it destroys the button. *)
Lemma walk_deletes_while_witness :
  Noise.text_pass (tl Noise.text_patterns) doc_button
  = Ok (soup [Elem "p" [] [Text "Story."]; Gone]) /\
  get [1] (soup [Elem "p" [] [Text "Story."]; Gone]) = None.
Proof.
  split; [vm_compute; reflexivity|].
  apply (proj2 (proj2 (proj2 (proj2 (proj2
           (walk_deletes_while "read more" (tl (tl Noise.text_patterns))
              [] [] [1; 0] doc_button doc_button
              (Elem "button" [] [Text "Read More"])
              eq_refl eq_refl ltac:(discriminate) eq_refl)))))
           eq_refl).
  - apply Nat.ltb_lt. vm_compute. reflexivity.
  - vm_compute. reflexivity.
Defined.





(** C9.  Once the markup is fetched, cleaned and parsed and the cascade
    has run: if the cascade found a block, the record is the successful
    one whatever generic extractor is plugged in, so the extractor is
    not consulted; if the cascade found nothing and the text of the
    extractor is empty once normalized, the record is [{url, error: "No
    content found"}]; if that text is not empty, it is the content.  A
    successful record is built whatever title, date and authors are
    recovered, missing or not, as long as the selector engine answers the
    queries of their recovery. *)
Theorem fallback_only_when_not_found (C : collaborators)
    (url use_proxy language : string) (r : option text) (html : text)
    (d0 d1 : node) (full : list text) (flag : bool) :
  fetch C url use_proxy = Ok r -> Meta.falsy r = false ->
  remove_overlays_and_clean_content C (Some (clean_input_text r))
    = Ok (Some html) ->
  parse C html = Ok d0 ->
  Locator.locate_r (select_raises C) d0 = Ok (d1, full, flag) ->
  Locator.locate d0 = (d1, full, flag) /\
  (flag = true ->
   forall m, Meta.recover_r (select_raises C) d1 = Ok m ->
   forall f : string -> string -> text -> res text,
     extract_article (with_article C f) url use_proxy language
     = Success url (Meta.recover_title d1) (clean_text (Noise.join para full))
         (Meta.recover_authors d1) (Meta.recover_date d1) use_proxy) /\
  (flag = false ->
   forall a : text,
     article_text C url language html = Ok a -> clean_text a = [] ->
     extract_article C url use_proxy language
     = Failure url "No content found") /\
  (flag = false ->
   forall m, Meta.recover_r (select_raises C) d1 = Ok m ->
   forall a : text,
     article_text C url language html = Ok a -> clean_text a <> [] ->
     extract_article C url use_proxy language
     = Success url (Meta.recover_title d1)
         (clean_text (Noise.join para [clean_text a]))
         (Meta.recover_authors d1) (Meta.recover_date d1) use_proxy).
Proof.
  intros Hf Hr Hc Hp Hl.
  pose proof (locate_r_ok _ _ Hl) as Hl0.
  pose proof (locate_found _ Hl0) as Hflag.
  split; [exact Hl0|].
  split; [|split].
  - intros Ht [[ti da] au] Hm f.
    rewrite (@extract_article_located (with_article C f) url use_proxy
               language r html d0 d1 full flag Hf Hr Hc Hp Hl).
    cbn [select_raises with_article]. rewrite Hm.
    destruct (recover_r_ok _ _ Hm) as (Eti & Eda & Eau). subst ti da au.
    unfold fallback. rewrite Ht.
    rewrite Ht in Hflag. destruct full; [discriminate Hflag | reflexivity].
  - intros Hn a Ha Hempty.
    rewrite (@extract_article_located C url use_proxy language r html d0 d1
               full flag Hf Hr Hc Hp Hl).
    rewrite Hn in Hflag. destruct full; [|discriminate Hflag].
    unfold fallback. rewrite Hn, Ha. cbn [bind]. rewrite Hempty.
    destruct (Locator.nonempty a); reflexivity.
  - intros Hn [[ti da] au] Hm a Ha Hfull.
    rewrite (@extract_article_located C url use_proxy language r html d0 d1
               full flag Hf Hr Hc Hp Hl).
    rewrite Hm.
    destruct (recover_r_ok _ _ Hm) as (Eti & Eda & Eau). subst ti da au.
    rewrite Hn in Hflag. destruct full; [|discriminate Hflag].
    unfold fallback. rewrite Hn, Ha. cbn [bind].
    destruct a as [|c a']; [exfalso; apply Hfull; reflexivity|].
    cbn [Locator.nonempty].
    destruct (clean_text (c :: a')) as [|b bs]; [congruence | reflexivity].
Qed.

Lemma fallback_only_when_not_found_witness :
  extract_article (fixed (soup []) (T "<html>") (Ok (T " ")))
    "u" "zyte" "en"
  = Failure "u" "No content found".
Proof.
  apply (proj1 (proj2 (proj2
           (fallback_only_when_not_found
              (fixed (soup []) (T "<html>") (Ok (T " "))) "u" "zyte" "en"
              (Some (T "<html>")) (T "<html>") (soup []) (soup []) [] false
              eq_refl eq_refl eq_refl eq_refl eq_refl)))
           eq_refl (T " ")); reflexivity.
Defined.

(** C10.  The output of the normalizer holds no newline, and so the text
    of every successful record is a single line. *)
Theorem normalized_text_single_line :
  (forall t : text, ~ In nl (clean_text t)) /\
  (forall (C : collaborators) (url use_proxy language u : string)
          (ti : option text) (tx : text) (au : list text)
          (da : option text) (me : string),
     extract_article C url use_proxy language = Success u ti tx au da me ->
     ~ In nl tx).
Proof.
  split; [exact clean_text_no_nl|].
  intros C url use_proxy language u ti tx au da me H.
  apply extract_article_success_inv in H.
  destruct H as (r & h & d0 & d1 & found & flag & full & _ & _ & _ & _ & _ &
                 _ & _ & _ & _ & _ & Htx & _).
  rewrite Htx. apply clean_text_no_nl.
Qed.

Lemma normalized_text_single_line_witness :
  ~ In nl (T prose).
Proof.
  apply (proj2 normalized_text_single_line
           (fixed doc_main (T "<html>") (Ok [])) "u"%string "zyte"%string
           "en"%string "u"%string
           (Some (T "Title Text")) (T prose) [] None "zyte"%string).
  vm_compute. reflexivity.
Defined.

(** * Further properties of the code *)

(** ** The Noise Stripper *)

Lemma strip_passes_clean (ids cls txts : list string) (d d' : node)
    (pat : string) :
  Noise.text_pass txts
    (Noise.strip_by Noise.class_matches cls
       (Noise.strip_by Noise.id_matches ids d)) = Ok d' ->
  (In pat ids -> find_all (Noise.id_matches pat) [] d' = []) /\
  (In pat cls -> find_all (Noise.class_matches pat) [] d' = []).
Proof.
  intros H. split; intros Hin.
  - eapply find_all_nil_text_pass; [apply id_matches_shallow | exact H |].
    apply find_all_nil_strip_by; [apply id_matches_shallow|].
    apply strip_by_clean; [exact id_matches_shallow | exact Hin].
  - eapply find_all_nil_text_pass; [apply class_matches_shallow | exact H |].
    apply strip_by_clean; [exact class_matches_shallow | exact Hin].
Qed.

Lemma strip_noise_eq (d : node) :
  Noise.strip_noise d =
  Noise.text_pass Noise.text_patterns
    (Noise.strip_by Noise.class_matches Noise.class_patterns
       (Noise.strip_by Noise.id_matches Noise.ids d)).
Proof. reflexivity. Qed.

(** X7.  After the three passes no element is left whose [id] holds one of
    the id patterns or one of whose classes holds one of the class
    patterns, in any case. *)
Theorem strip_noise_ids_classes_gone (d d' : node) (pat : string)
    (p : path) (n : node) :
  Noise.strip_noise d = Ok d' ->
  p <> [] -> get p d' = Some n ->
  (In pat Noise.ids -> Noise.id_matches pat n = false) /\
  (In pat Noise.class_patterns -> Noise.class_matches pat n = false).
Proof.
  intros H Hp Hg. rewrite strip_noise_eq in H.
  destruct (strip_passes_clean Noise.ids Noise.class_patterns
              Noise.text_patterns d d' pat H) as [Hi Hc].
  split; intros Hin.
  - apply (proj1 (find_all_nil _ _ _) (Hi Hin) p n Hp Hg).
  - apply (proj1 (find_all_nil _ _ _) (Hc Hin) p n Hp Hg).
Qed.

Lemma strip_noise_ids_classes_gone_witness :
  Noise.id_matches "advertisement" (Elem "p" [] [Text "Story."]) = false.
Proof.
  apply (proj1 (strip_noise_ids_classes_gone doc_ad
                  (soup [Gone; Elem "p" [] [Text "Story."]; Gone])
                  "advertisement" [1] (Elem "p" [] [Text "Story."])
                  eq_refl ltac:(discriminate) eq_refl)).
  vm_compute. tauto.
Defined.

Lemma walk_elements_dead (els : list path) :
  forall (e : path) (d : node),
    In e els -> get e d = None ->
    Noise.walk_elements els d = Raise Noise.attribute_error.
Proof.
  induction els as [|x els IH]; intros e d Hin Hg; [destruct Hin|].
  cbn [Noise.walk_elements].
  destruct (get x d) eqn:Hx; [|reflexivity].
  destruct Hin as [E|Hin]; [subst; congruence|].
  apply (IH e _ Hin). apply walk_up_keeps_none, Hg.
Qed.

Lemma walk_deleted_gone (rp : list nat) :
  forall (a : path) (d : node),
    In a (walk_deleted rp d) -> get a (Noise.walk_up rp d) = None.
Proof.
  induction rp as [|i rp IH]; intros a d H.
  - cbn [walk_deleted Noise.walk_up] in *.
    destruct (get (rev []) d); [|destruct H].
    destruct (Noise.walk_cond _ n); [|destruct H].
    destruct H as [E|[]]. subst a. reflexivity.
  - cbn [walk_deleted Noise.walk_up] in *.
    destruct (get (rev (i :: rp)) d); [|destruct H].
    destruct (Noise.walk_cond _ n); [|destruct H].
    destruct H as [E|H].
    + subst a. apply walk_up_keeps_none, get_decompose_self.
    + apply IH, H.
Qed.

(** X8.  The text-pattern pass raises when a walk deletes an element that
    holds a later match of the same pattern: the reference to that text
    node is then a reference to a destroyed object, and reading its
    [parent] fails. *)
Theorem text_pass_stale_reference (e1 e2 a : path) (els : list path)
    (d : node) :
  get e1 d <> None ->
  In a (walk_deleted (rev (parent e1)) d) -> above a e2 ->
  In e2 els ->
  Noise.walk_elements (e1 :: els) d = Raise Noise.attribute_error.
Proof.
  intros H1 Ha [r Hr] Hin.
  cbn [Noise.walk_elements].
  destruct (get e1 d); [clear H1 | congruence].
  apply (walk_elements_dead els e2 _ Hin).
  subst e2. rewrite get_app.
  rewrite (walk_deleted_gone _ _ _ Ha). reflexivity.
Qed.

Lemma text_pass_stale_reference_witness :
  Noise.walk_elements [[0; 0; 0]; [0; 1; 0]] doc_two_links
  = Raise Noise.attribute_error.
Proof.
  apply (text_pass_stale_reference [0; 0; 0] [0; 1; 0] [0] [[0; 1; 0]]
           doc_two_links).
  - discriminate.
  - vm_compute. tauto.
  - exists [1; 0]. reflexivity.
  - left. reflexivity.
Defined.

Lemma strip_by_nothing (pred : string -> node -> bool) (pats : list string)
    (d : node) :
  (forall pat, In pat pats -> find_all (pred pat) [] d = []) ->
  Noise.strip_by pred pats d = d.
Proof.
  unfold Noise.strip_by.
  induction pats as [|pat pats IH]; intros H; cbn [fold_left]; [reflexivity|].
  rewrite (H pat (or_introl eq_refl)). cbn.
  apply IH. intros pat' Hin. apply H. right. exact Hin.
Qed.

Lemma text_pass_nothing (pats : list string) (d : node) :
  (forall pat, In pat pats -> find_all (Noise.text_matches pat) [] d = []) ->
  Noise.text_pass pats d = Ok d.
Proof.
  induction pats as [|pat pats IH]; intros H; cbn [Noise.text_pass];
    [reflexivity|].
  rewrite (H pat (or_introl eq_refl)). cbn.
  apply IH. intros pat' Hin. apply H. right. exact Hin.
Qed.

(** X12.  A document that holds no noise is left as it is: no element with an
    [id] or a class that a pattern is found in, no text node that a text
    pattern is found in. *)
Theorem strip_noise_nothing_to_do (d : node) :
  (forall pat p n, In pat Noise.ids -> p <> [] -> get p d = Some n ->
     Noise.id_matches pat n = false) ->
  (forall pat p n, In pat Noise.class_patterns -> p <> [] ->
     get p d = Some n -> Noise.class_matches pat n = false) ->
  (forall pat p n, In pat Noise.text_patterns -> p <> [] ->
     get p d = Some n -> Noise.text_matches pat n = false) ->
  Noise.strip_noise d = Ok d.
Proof.
  intros Hi Hc Ht. rewrite strip_noise_eq.
  rewrite !strip_by_nothing.
  - apply text_pass_nothing. intros pat Hin. apply find_all_nil.
    intros r n Hr Hg. exact (Ht pat r n Hin Hr Hg).
  - intros pat Hin. apply find_all_nil.
    intros r n Hr Hg. exact (Hi pat r n Hin Hr Hg).
  - intros pat Hin. rewrite strip_by_nothing.
    + apply find_all_nil. intros r n Hr Hg. exact (Hc pat r n Hin Hr Hg).
    + intros pat' Hin'. apply find_all_nil.
      intros r n Hr Hg. exact (Hi pat' r n Hin' Hr Hg).
Qed.

(** ** The Text Normalizer *)

Section NormalizerMore.

Let W : text -> text := re_sub match_ws [sp].
Let B : text -> text := re_sub match_blank [nl; nl].
Let P : text -> text := re_sub match_phrase [].

Lemma sub_from_skipn (m : text -> option nat) (repl : text) (s : text) :
  forall k : nat, sub_from m repl k s = sub_from m repl 0 (skipn k s).
Proof.
  induction s as [|c r IH]; intros k.
  - destruct k; reflexivity.
  - destruct k as [|k]; [reflexivity|]. cbn [sub_from skipn]. apply IH.
Qed.

Lemma skipn_span_ws (r : text) : skipn (span_ws r) r = lstrip r.
Proof.
  induction r as [|c r IH]; [reflexivity|].
  cbn [span_ws lstrip]. destruct (is_space c); [exact IH | reflexivity].
Qed.

Lemma W_space (c : ascii) (r : text) :
  is_space c = true -> W (c :: r) = sp :: W (lstrip r).
Proof.
  intros Hc. unfold W, re_sub. cbn [sub_from].
  rewrite match_ws_cons, Hc. cbn [app].
  rewrite sub_from_skipn, skipn_span_ws. reflexivity.
Qed.

Lemma W_nonspace (c : ascii) (r : text) :
  is_space c = false -> W (c :: r) = c :: W r.
Proof.
  intros Hc. unfold W, re_sub. cbn [sub_from].
  rewrite match_ws_cons, Hc. reflexivity.
Qed.

Lemma is_nl_space (c : ascii) : is_nl c = true -> is_space c = true.
Proof.
  unfold is_nl. intros H. apply Ascii.eqb_eq in H. subst c. reflexivity.
Qed.

Lemma ws_to_last_nl_bound (r : text) :
  forall k : nat, ws_to_last_nl r = Some k -> 1 <= k <= span_ws r.
Proof.
  induction r as [|c r IH]; intros k H; [discriminate H|].
  cbn [ws_to_last_nl span_ws] in *.
  destruct (is_space c); [|discriminate H].
  destruct (ws_to_last_nl r) as [j|].
  - inversion H; subst. specialize (IH j eq_refl). lia.
  - destruct (is_nl c); inversion H; subst. lia.
Qed.

(** A match of [\n\s*\n] lies inside one run of whitespace. *)
Lemma match_blank_bound (c : ascii) (r : text) (m : nat) :
  match_blank (c :: r) = Some m ->
  is_space c = true /\ exists n, m = S n /\ 1 <= n <= span_ws r.
Proof.
  cbn [match_blank]. destruct (is_nl c) eqn:Hc; [|discriminate].
  destruct (ws_to_last_nl r) as [k|] eqn:Hk; [|discriminate].
  intros H. inversion H; subst. split; [apply is_nl_space, Hc|].
  exists k. split; [reflexivity | apply ws_to_last_nl_bound, Hk].
Qed.

Lemma match_blank_nonspace (c : ascii) (r : text) :
  is_space c = false -> match_blank (c :: r) = None.
Proof.
  intros Hc. destruct (match_blank (c :: r)) as [m|] eqn:E; [|reflexivity].
  apply match_blank_bound in E. destruct E as [E _]. congruence.
Qed.

Lemma B_cons (c : ascii) (r : text) :
  B (c :: r) =
  match match_blank (c :: r) with
  | Some (S n) => nl :: nl :: B (skipn n r)
  | _ => c :: B r
  end.
Proof.
  unfold B, re_sub. cbn [sub_from].
  destruct (match_blank (c :: r)) as [[|n]|]; try reflexivity.
  cbn [app]. rewrite sub_from_skipn. reflexivity.
Qed.

Lemma lstrip_skipn (r : text) :
  forall n : nat, n <= span_ws r -> lstrip (skipn n r) = lstrip r.
Proof.
  induction r as [|c r IH]; intros n H.
  - destruct n; reflexivity.
  - destruct n as [|n]; [reflexivity|].
    cbn [span_ws] in H. cbn [skipn lstrip].
    destruct (is_space c); [apply IH; lia | lia].
Qed.

Lemma length_lstrip (s : text) : List.length (lstrip s) <= List.length s.
Proof.
  induction s as [|c r IH]; [reflexivity|].
  cbn [lstrip]. destruct (is_space c); cbn [List.length]; lia.
Qed.

Lemma length_skipn_le (n : nat) (s : text) :
  List.length (skipn n s) <= List.length s.
Proof. rewrite length_skipn. lia. Qed.

Lemma lstrip_B_bounded (n : nat) :
  forall s : text, List.length s <= n -> lstrip (B s) = B (lstrip s).
Proof.
  induction n as [|n IH]; intros s Hn.
  - destruct s; [reflexivity | cbn in Hn; lia].
  - destruct s as [|c r]; [reflexivity|]. cbn [List.length] in Hn.
    rewrite B_cons. destruct (is_space c) eqn:Hc.
    + cbn [lstrip]. rewrite Hc.
      destruct (match_blank (c :: r)) as [[|k]|] eqn:Hm.
      * cbn [lstrip]. rewrite Hc. apply IH. lia.
      * apply match_blank_bound in Hm.
        destruct Hm as (_ & k' & E & Hk). inversion E; subst k'.
        cbn [lstrip]. rewrite nl_is_space.
        rewrite IH by (pose proof (length_skipn_le k r); lia).
        rewrite lstrip_skipn by lia. reflexivity.
      * cbn [lstrip]. rewrite Hc. apply IH. lia.
    + rewrite (match_blank_nonspace _ _ Hc).
      cbn [lstrip]. rewrite Hc. rewrite B_cons, (match_blank_nonspace _ _ Hc).
      reflexivity.
Qed.

Lemma lstrip_B (s : text) : lstrip (B s) = B (lstrip s).
Proof. apply (lstrip_B_bounded (List.length s)). lia. Qed.

Lemma W_B_bounded (n : nat) :
  forall s : text, List.length s <= n -> W (B s) = W s.
Proof.
  induction n as [|n IH]; intros s Hn.
  - destruct s; [reflexivity | cbn in Hn; lia].
  - destruct s as [|c r]; [reflexivity|]. cbn [List.length] in Hn.
    pose proof (length_lstrip r) as Hl.
    rewrite B_cons. destruct (is_space c) eqn:Hc.
    + rewrite (W_space _ r Hc).
      destruct (match_blank (c :: r)) as [[|k]|] eqn:Hm.
      * rewrite (W_space _ _ Hc), lstrip_B. f_equal. apply IH. lia.
      * apply match_blank_bound in Hm.
        destruct Hm as (_ & k' & E & Hk). inversion E; subst k'.
        rewrite (W_space _ _ nl_is_space). cbn [lstrip]. rewrite nl_is_space.
        rewrite lstrip_B, lstrip_skipn by lia. f_equal. apply IH. lia.
      * rewrite (W_space _ _ Hc), lstrip_B. f_equal. apply IH. lia.
    + rewrite (match_blank_nonspace _ _ Hc).
      rewrite !(W_nonspace _ _ Hc). f_equal. apply IH. lia.
Qed.

End NormalizerMore.

(** X1.  The substitution of line 85 never changes the result of
    [clean_text]: the text is what lines 86 to 88 alone give. *)
Theorem clean_text_blank_pass_idle (t : text) :
  clean_text t = strip (re_sub match_phrase [] (re_sub match_ws [sp] t)).
Proof.
  destruct t as [|c r]; [reflexivity|].
  unfold clean_text. cbv zeta.
  change (T (String nl (String nl EmptyString))) with [nl; nl].
  rewrite (W_B_bounded (List.length (c :: r)) (c :: r) (le_n _)).
  reflexivity.
Qed.

Lemma sub_from_length (m : text -> option nat) (repl : text) :
  List.length repl <= 1 ->
  forall (s : text) (k : nat),
    List.length (sub_from m repl k s) <= List.length s - k.
Proof.
  intros Hr. induction s as [|c r IH]; intros k; [cbn; lia|].
  cbn [sub_from List.length]. destruct k as [|k].
  - destruct (m (c :: r)) as [[|n]|].
    + cbn [List.length]. specialize (IH 0). lia.
    + rewrite length_app. specialize (IH n). lia.
    + cbn [List.length]. specialize (IH 0). lia.
  - specialize (IH k). lia.
Qed.

Lemma length_strip (s : text) : List.length (strip s) <= List.length s.
Proof.
  unfold strip, rstrip. rewrite length_rev.
  pose proof (length_lstrip (rev (lstrip s))) as H1.
  rewrite length_rev in H1. pose proof (length_lstrip s). lia.
Qed.

(** X2.  The normalizer never lengthens a text. *)
Theorem clean_text_length (t : text) :
  List.length (clean_text t) <= List.length t.
Proof.
  rewrite clean_text_blank_pass_idle.
  pose proof (length_strip (re_sub match_phrase [] (re_sub match_ws [sp] t))).
  pose proof (sub_from_length match_phrase [] (Nat.le_0_l 1)
                (re_sub match_ws [sp] t) 0) as H1.
  pose proof (sub_from_length match_ws [sp] (le_n 1) t 0) as H2.
  unfold re_sub in *. lia.
Qed.

Lemma span_ws_length (r : text) : span_ws r <= List.length r.
Proof.
  induction r as [|c r IH]; [reflexivity|].
  cbn [span_ws List.length]. destruct (is_space c); lia.
Qed.

Lemma ws_pass_shortens (s : text) :
  Forall only_sp s -> double_space s = true ->
  List.length (re_sub match_ws [sp] s) < List.length s.
Proof.
  unfold re_sub.
  induction 1 as [|c r Hc Hr IH]; intros D; [discriminate D|].
  cbn [sub_from]. rewrite match_ws_cons.
  destruct r as [|b r'] eqn:Er; [discriminate D|]. rewrite <- Er in *.
  assert (Hb : double_space (c :: r)
               = (Ascii.eqb c sp && Ascii.eqb b sp) || double_space r)
    by (rewrite Er; reflexivity).
  rewrite Hb in D.
  destruct (is_space c) eqn:Ec.
  - cbn [app List.length].
    pose proof (sub_from_length match_ws [sp] (le_n 1) r (span_ws r)) as L.
    pose proof (span_ws_length r) as S.
    destruct (span_ws r) as [|j] eqn:Es.
    + assert (double_space r = true) as D'.
      { apply orb_true_iff in D. destruct D as [D|D]; [|exact D].
        apply andb_true_iff in D. destruct D as [_ D].
        apply Ascii.eqb_eq in D. subst b. rewrite Er in Es.
        cbn in Es. discriminate Es. }
      specialize (IH D'). lia.
    + assert (0 < List.length r) by (rewrite Er; cbn; lia). lia.
  - assert (double_space r = true) as D'.
    { apply orb_true_iff in D. destruct D as [D|D]; [|exact D].
      apply andb_true_iff in D. destruct D as [D _].
      apply Ascii.eqb_eq in D. subst c. discriminate Ec. }
    specialize (IH D'). cbn [List.length]. lia.
Qed.

Lemma match_phrase_pos (s : text) (m : nat) :
  match_phrase s = Some m -> 1 <= m.
Proof.
  unfold match_phrase, phrases. cbn [first_phrase].
  repeat (destruct (prefix_ci _ s);
          [intros H; inversion H; cbn; lia|]).
  discriminate.
Qed.

Lemma phrase_pass_shortens (s : text) :
  has_phrase s = true ->
  List.length (re_sub match_phrase [] s) < List.length s.
Proof.
  unfold re_sub. induction s as [|c r IH]; intros H; [discriminate H|].
  cbn [has_phrase] in H. cbn [sub_from List.length].
  destruct (match_phrase (c :: r)) as [m|] eqn:Hm.
  - apply match_phrase_pos in Hm. destruct m as [|n]; [lia|].
    cbn [app].
    pose proof (sub_from_length match_phrase [] (Nat.le_0_l 1) r n). lia.
  - specialize (IH H). cbn [List.length]. lia.
Qed.

(** X3.  The texts the normalizer leaves alone are exactly those whose only
    whitespace is the space, never doubled, leading or trailing, and
    that hold no boilerplate phrase. *)
Theorem clean_text_fixed_points (u : text) :
  clean_text u = u <->
  Forall only_sp u /\ double_space u = false /\ has_phrase u = false /\
  strip u = u.
Proof.
  split.
  - intros E.
    assert (Hs : Forall only_sp u) by (rewrite <- E; apply clean_text_only_sp).
    assert (Ht : strip u = u) by (rewrite <- E; apply clean_text_stripped).
    pose proof E as E'. rewrite clean_text_blank_pass_idle in E'.
    pose proof (length_strip (re_sub match_phrase [] (re_sub match_ws [sp] u)))
      as L1.
    pose proof (sub_from_length match_phrase [] (Nat.le_0_l 1)
                  (re_sub match_ws [sp] u) 0) as L2.
    pose proof (sub_from_length match_ws [sp] (le_n 1) u 0) as L3.
    fold (re_sub match_phrase [] (re_sub match_ws [sp] u)) in L2.
    fold (re_sub match_ws [sp] u) in L3.
    rewrite E' in L1.
    assert (Hd : double_space u = false).
    { destruct (double_space u) eqn:D; [|reflexivity].
      pose proof (ws_pass_shortens u Hs D). lia. }
    rewrite (sub_ws_fix Hs Hd) in *.
    assert (Hp : has_phrase u = false).
    { destruct (has_phrase u) eqn:D; [|reflexivity].
      pose proof (phrase_pass_shortens u D). lia. }
    repeat split; assumption.
  - intros (Hs & Hd & Hp & Ht). apply clean_text_fix; assumption.
Qed.

Lemma lstrip_all_space (t : text) : all_space t = true -> lstrip t = [].
Proof.
  induction t as [|c r IH]; [reflexivity|].
  cbn [all_space forallb lstrip]. intros H.
  apply andb_true_iff in H. destruct H as [Hc Hr]. rewrite Hc.
  apply IH, Hr.
Qed.

(** X4.  A text of whitespace only is normalized to the empty text. *)
Theorem clean_text_all_space (t : text) :
  all_space t = true -> clean_text t = [].
Proof.
  intros H. rewrite clean_text_blank_pass_idle.
  destruct t as [|c r]; [reflexivity|].
  cbn [all_space forallb] in H. apply andb_true_iff in H.
  destruct H as [Hc Hr].
  rewrite (W_space c r Hc), (lstrip_all_space r Hr). reflexivity.
Qed.

Lemma clean_text_all_space_witness :
  clean_text (T ("  " ++ LF ++ " ")%string) = [].
Proof.
  apply (clean_text_all_space (T ("  " ++ LF ++ " ")%string)). reflexivity.
Defined.

(** X5.  The output of the normalizer neither starts nor ends with
    whitespace, and its only whitespace character is the space. *)
Theorem clean_text_trimmed (t : text) :
  hd_ok (clean_text t) = true /\ hd_ok (rev (clean_text t)) = true /\
  Forall only_sp (clean_text t).
Proof.
  split; [|split; [|apply clean_text_only_sp]].
  - destruct t as [|c r]; [reflexivity|]. unfold clean_text. cbv zeta.
    unfold strip. apply rstrip_hd_ok, lstrip_hd_ok.
  - destruct t as [|c r]; [reflexivity|]. unfold clean_text. cbv zeta.
    unfold strip, rstrip. rewrite rev_involutive. apply lstrip_hd_ok.
Qed.

Lemma lstrip_app_hd_ok (r y : text) :
  hd_ok y = true -> lstrip (r ++ y) = lstrip r ++ y.
Proof.
  intros H. induction r as [|a r IH]; [apply lstrip_fix, H|].
  cbn [app lstrip]. destruct (is_space a); [exact IH | reflexivity].
Qed.

(** The whitespace pass works run by run: it goes through a text that
    is followed by one that does not start with whitespace. *)
Lemma ws_pass_app_bounded (n : nat) (y : text) :
  hd_ok y = true ->
  forall x : text, List.length x <= n ->
    re_sub match_ws [sp] (x ++ y)
    = re_sub match_ws [sp] x ++ re_sub match_ws [sp] y.
Proof.
  intros Hy. induction n as [|n IH]; intros x Hn.
  - destruct x; [reflexivity | cbn in Hn; lia].
  - destruct x as [|c r]; [reflexivity|]. cbn [List.length] in Hn.
    cbn [app]. destruct (is_space c) eqn:Ec.
    + rewrite (W_space c (r ++ y) Ec), (W_space c r Ec).
      rewrite (lstrip_app_hd_ok r y Hy).
      rewrite IH by (pose proof (length_lstrip r); lia). reflexivity.
    + rewrite (W_nonspace c (r ++ y) Ec), (W_nonspace c r Ec).
      rewrite IH by lia. reflexivity.
Qed.

Lemma lstrip_app_cases (r z : text) :
  lstrip (r ++ z) = match lstrip r with [] => lstrip z | _ => lstrip r ++ z end.
Proof.
  induction r as [|a r IH]; [cbn; destruct (lstrip z); reflexivity|].
  cbn [app lstrip]. destruct (is_space a); [exact IH | reflexivity].
Qed.

Lemma ws_pass_tail_bounded (n : nat) :
  forall x : text, List.length x <= n ->
    re_sub match_ws [sp] (x ++ [nl; nl]) = re_sub match_ws [sp] (x ++ [sp]).
Proof.
  induction n as [|n IH]; intros x Hn.
  - destruct x; [reflexivity | cbn in Hn; lia].
  - destruct x as [|c r]; [reflexivity|]. cbn [List.length] in Hn.
    cbn [app]. destruct (is_space c) eqn:Ec.
    + rewrite (W_space c (r ++ [nl; nl]) Ec), (W_space c (r ++ [sp]) Ec).
      rewrite !lstrip_app_cases.
      pose proof (length_lstrip r) as Hl.
      destruct (lstrip r) as [|a r'] eqn:El; [reflexivity|].
      rewrite IH by lia. reflexivity.
    + rewrite (W_nonspace c (r ++ [nl; nl]) Ec), (W_nonspace c (r ++ [sp]) Ec).
      rewrite IH by lia. reflexivity.
Qed.

Lemma stripped_hd_ok (b : text) : strip b = b -> hd_ok b = true.
Proof.
  intros E. rewrite <- E. unfold strip. apply rstrip_hd_ok, lstrip_hd_ok.
Qed.

Lemma join_hd_ok (sep : text) (b : text) (bs : list text) :
  b <> [] -> hd_ok b = true -> hd_ok (Noise.join sep (b :: bs)) = true.
Proof.
  intros Hn Hb. destruct b as [|c r]; [congruence|].
  destruct bs; exact Hb.
Qed.

Lemma ws_pass_join (bs : list text) :
  Forall (fun b => b <> [] /\ strip b = b) bs ->
  re_sub match_ws [sp] (Noise.join para bs)
  = re_sub match_ws [sp] (Noise.join [sp] bs).
Proof.
  induction bs as [|b1 bs IH]; intros H; [reflexivity|].
  inversion H as [|? ? [Hn Hs] Hbs]; subst. specialize (IH Hbs).
  destruct bs as [|b2 bs']; [reflexivity|].
  inversion Hbs as [|? ? [Hn2 Hs2] _]; subst.
  change (Noise.join para (b1 :: b2 :: bs'))
    with (b1 ++ para ++ Noise.join para (b2 :: bs')).
  change (Noise.join [sp] (b1 :: b2 :: bs'))
    with (b1 ++ [sp] ++ Noise.join [sp] (b2 :: bs')).
  rewrite (app_assoc b1 para _), (app_assoc b1 [sp] _).
  rewrite (ws_pass_app_bounded (List.length (b1 ++ para)) _
             (join_hd_ok para b2 bs' Hn2 (stripped_hd_ok b2 Hs2))
             (b1 ++ para) (le_n _)).
  rewrite (ws_pass_app_bounded (List.length (b1 ++ [sp])) _
             (join_hd_ok [sp] b2 bs' Hn2 (stripped_hd_ok b2 Hs2))
             (b1 ++ [sp]) (le_n _)).
  rewrite IH.
  unfold para. rewrite (ws_pass_tail_bounded (List.length b1) b1 (le_n _)).
  reflexivity.
Qed.

(** X6.  The blank lines that line 122 puts between the blocks do not reach
    the record: the final text is what it would be, had the blocks been
    joined by single spaces. *)
Theorem final_text_single_spaced (full_content : list text) :
  Forall (fun b => b <> [] /\ strip b = b) full_content ->
  clean_text (Noise.join para full_content)
  = clean_text (Noise.join [sp] full_content).
Proof.
  intros H. rewrite !clean_text_blank_pass_idle, (ws_pass_join _ H).
  reflexivity.
Qed.

Lemma final_text_single_spaced_witness :
  clean_text (Noise.join para [T "one"; T "two"]) = T "one two".
Proof.
  rewrite (final_text_single_spaced [T "one"; T "two"]).
  - reflexivity.
  - repeat constructor; discriminate.
Defined.

(** ** The Content Locator *)

Lemma scan_texts_clean (cs : list path) :
  forall (d : node) (b : text),
    In b (scan_texts cs d) -> exists x : text, b = clean_text x.
Proof.
  induction cs as [|c cs IH]; intros d b H; [destruct H|].
  cbn [scan_texts] in H. destruct H as [E|H].
  - subst b. unfold Locator.block. eexists. reflexivity.
  - apply (IH _ _ H).
Qed.

Lemma cascade_blocks (sels : list selector) :
  forall (d : node) (b : text),
    In b (blocks_of (Locator.cascade sels (d, [], false))) ->
    Locator.accepted b = true /\ exists x : text, b = clean_text x.
Proof.
  induction sels as [|sel sels IH]; intros d b H; [destruct H|].
  rewrite cascade_cons in H.
  destruct (found_of (tier sel d)); [|apply (IH _ _ H)].
  unfold tier in H. rewrite scan_contents_blocks in H.
  apply filter_In in H. destruct H as [H Ha].
  split; [exact Ha | apply (scan_texts_clean _ _ _ H)].
Qed.

(** X13.  Every block the locator returns is a normalized text of more than
    100 characters: trimmed, on one line. *)
Theorem locate_blocks_normalized (d : node) (b : text) :
  In b (blocks_of (Locator.locate d)) ->
  100 < List.length b /\ strip b = b /\ ~ In nl b /\ Forall only_sp b.
Proof.
  intros H. apply cascade_blocks in H. destruct H as [Ha [x E]]. subst b.
  split; [apply accepted_iff, Ha|].
  split; [apply clean_text_stripped|].
  split; [apply clean_text_no_nl | apply clean_text_only_sp].
Qed.

Lemma locate_blocks_normalized_witness :
  100 < List.length (T prose) /\ strip (T prose) = T prose /\
  ~ In nl (T prose) /\ Forall only_sp (T prose).
Proof.
  apply (locate_blocks_normalized doc_main (T prose)).
  vm_compute. tauto.
Defined.

(** X14.  Lines 97-98 leave no script, style, iframe, noscript or form below
    the matched element. *)
Theorem strip_unwanted_clears (c r : path) (d n : node) :
  r <> [] -> get (c ++ r) (Locator.strip_unwanted c d) = Some n ->
  Locator.is_unwanted n = false.
Proof.
  intros Hr Hg.
  pose proof (find_all_decomposed c d is_unwanted_shallow) as E.
  rewrite find_all_nil in E. exact (E r n Hr Hg).
Qed.

Lemma strip_unwanted_clears_witness :
  Locator.is_unwanted (Text "Short teaser.") = false.
Proof.
  apply (strip_unwanted_clears [0] [0] doc_form (Text "Short teaser.")).
  - discriminate.
  - reflexivity.
Defined.

Lemma cascade_no_match (sels : list selector) (d : node) :
  (forall sel, In sel sels -> select sel d = []) ->
  Locator.cascade sels (d, [], false) = (d, [], false).
Proof.
  induction sels as [|sel sels IH]; intros H; [reflexivity|].
  rewrite cascade_cons. unfold tier.
  rewrite (H sel (or_introl eq_refl)). cbn.
  apply IH. intros s Hs. apply H. right. exact Hs.
Qed.

(** X15.  On a document that none of the eighteen selectors matches, the
    locator finds nothing and leaves the soup as it was. *)
Theorem locate_no_match (d : node) :
  (forall sel, In sel Locator.content_selectors -> select sel d = []) ->
  Locator.locate d = (d, [], false).
Proof. apply cascade_no_match. Qed.

Lemma locate_no_match_witness :
  Locator.locate doc_button = (doc_button, [], false).
Proof.
  apply (locate_no_match doc_button).
  intros sel H. cbn in H.
  repeat (destruct H as [H|H]; [subst sel; reflexivity|]). destruct H.
Defined.

(** ** Metadata Recovery *)





Lemma author_candidates_stripped (d : node) (a : text) :
  In a (author_candidates d) -> strip a = a.
Proof.
  unfold author_candidates. rewrite in_flat_map.
  intros (sel & _ & H). apply in_map_iff in H.
  destruct H as (e & E & _). subst a.
  unfold Meta.stripped_text. apply strip_idem.
Qed.

(** X18.  No author is the empty string, and none has leading or trailing
    whitespace. *)
Theorem authors_clean (d : node) (a : text) :
  In a (Meta.recover_authors d) -> a <> [] /\ strip a = a.
Proof.
  unfold Meta.recover_authors. rewrite authors_loop_firsts. cbn [app].
  rewrite firsts_In. intros (H & Hn & _).
  split; [exact Hn | apply (author_candidates_stripped d a H)].
Qed.

Lemma authors_clean_witness :
  T "Jane Doe" <> [] /\ strip (T "Jane Doe") = T "Jane Doe".
Proof.
  apply (authors_clean doc_authors (T "Jane Doe")).
  vm_compute. tauto.
Defined.

Lemma title_loop_stripped (sels : list selector) (d : node)
    (t0 : option text) (t : text) :
  Meta.title_loop sels d t0 = Some t -> t0 = Some t \/ strip t = t.
Proof.
  induction sels as [|sel sels IH]; cbn [Meta.title_loop].
  - intros H. left. exact H.
  - destruct (select_one sel d); [|exact IH].
    intros H. inversion H. right. unfold Meta.stripped_text. apply strip_idem.
Qed.

(** X19.  A title has no leading or trailing whitespace. *)
Theorem title_stripped (d : node) (t : text) :
  Meta.recover_title d = Some t -> strip t = t.
Proof.
  unfold Meta.recover_title.
  assert (H0 : forall t', Meta.h1_title d = Some t' -> strip t' = t').
  { unfold Meta.h1_title. destruct (Meta.find_tag "h1" d); [|discriminate].
    intros t' E. inversion E. unfold Meta.stripped_text. apply strip_idem. }
  destruct (Meta.falsy (Meta.h1_title d)); [|apply H0].
  intros H. apply title_loop_stripped in H. destruct H as [H|H];
    [apply H0, H | exact H].
Qed.

Lemma title_stripped_witness : strip (T "Title Text") = T "Title Text".
Proof.
  apply (title_stripped doc_main (T "Title Text")). reflexivity.
Defined.

(** ** The fetchers and the Orchestrator *)

Lemma T_app (a b : string) : T (a ++ b) = T a ++ T b.
Proof.
  unfold T. induction a as [|c a IH]; [reflexivity|].
  cbn. rewrite IH. reflexivity.
Qed.

Lemma prefix_app (p s : text) : prefix p (p ++ s) = true.
Proof.
  induction p as [|c p IH]; [destruct s; reflexivity|].
  cbn. rewrite Ascii.eqb_refl. exact IH.
Qed.

Lemma contains_app (p s : text) : contains p (p ++ s) = true.
Proof.
  destruct (p ++ s) as [|c r] eqn:E.
  - destruct p; [reflexivity | discriminate E].
  - cbn [contains]. rewrite <- E, prefix_app. reflexivity.
Qed.

(** X20.  Lines 247-248 put [https://] in front of a url that holds neither
    [http://] nor [https://] anywhere, and leave any other url as it is;
    the result always holds one of the two, and a second application
    changes nothing. *)
Theorem with_scheme_spec (url : string) :
  (with_scheme url = url \/ with_scheme url = ("https://" ++ url)%string) /\
  contains (T "http://") (T (with_scheme url))
  || contains (T "https://") (T (with_scheme url)) = true /\
  with_scheme (with_scheme url) = with_scheme url /\
  (contains (T "http://") (T url) || contains (T "https://") (T url) = true ->
   with_scheme url = url).
Proof.
  assert (H : contains (T "https://") (T ("https://" ++ url)%string) = true)
    by (rewrite T_app; apply contains_app).
  assert (K : forall u,
             contains (T "http://") (T u) || contains (T "https://") (T u) = true ->
             with_scheme u = u).
  { intros u Hu. unfold with_scheme.
    destruct (contains (T "http://") (T u));
      destruct (contains (T "https://") (T u)); try reflexivity.
    discriminate Hu. }
  destruct (contains (T "http://") (T url) || contains (T "https://") (T url))
    eqn:E.
  - pose proof (K url E) as W. rewrite !W.
    split; [left; reflexivity|]. split; [exact E|].
    split; [reflexivity | intros _; reflexivity].
  - assert (W : with_scheme url = ("https://" ++ url)%string).
    { unfold with_scheme. apply orb_false_iff in E. destruct E as [E1 E2].
      rewrite E1, E2. reflexivity. }
    rewrite !W.
    split; [right; reflexivity|].
    split; [rewrite H; apply orb_true_r|].
    split; [|discriminate].
    apply K. rewrite H. apply orb_true_r.
Qed.

Lemma with_scheme_spec_witness : with_scheme "http://a.io" = "http://a.io"%string.
Proof.
  apply (proj2 (proj2 (proj2 (with_scheme_spec "http://a.io")))).
  reflexivity.
Defined.

(** X21.  Line 185: the result is stripped, empty for a missing or blank
    reply, and a second application changes nothing. *)
Theorem clean_input_text_spec (t : option text) :
  strip (clean_input_text t) = clean_input_text t /\
  clean_input_text (Some (clean_input_text t)) = clean_input_text t /\
  clean_input_text None = [] /\
  (forall s, t = Some s -> all_space s = true -> clean_input_text t = []).
Proof.
  assert (E : forall s, clean_input_text (Some s) = strip s)
    by (intros [|c s]; reflexivity).
  split; [|split; [|split]].
  - destruct t as [s|]; [|reflexivity]. rewrite E. apply strip_idem.
  - destruct t as [s|]; [|reflexivity]. rewrite !E. apply strip_idem.
  - reflexivity.
  - intros s Ht Hs. subst t. rewrite E. unfold strip.
    rewrite (lstrip_all_space s Hs). reflexivity.
Qed.

Lemma clean_input_text_spec_witness :
  clean_input_text (Some (T "   ")) = [].
Proof.
  apply (proj2 (proj2 (proj2 (clean_input_text_spec (Some (T "   ")))))
           (T "   ")); reflexivity.
Defined.

Lemma assoc_None (k : string) (l : list (string * string)) :
  assoc k l = None <-> ~ In k (map fst l).
Proof.
  induction l as [|[k' v] l IH]; cbn [assoc map fst In]; [tauto|].
  destruct (String.eqb k k') eqn:E.
  - apply String.eqb_eq in E. subst. split; [discriminate | tauto].
  - apply String.eqb_neq in E. rewrite IH. split; [|tauto].
    intros H [H1|H1]; [congruence | tauto].
Qed.

(** X22.  [get_constant] answers [None] for a key that is not one of the four
    it knows, and so does not raise; the four keys the constructor asks
    for are among them, so every field of a new scraper is set. *)
Theorem get_constant_spec :
  (forall key : string,
     get_constant key = None <->
     ~ In key ["oxylabs_scraper_username"; "oxylabs_scraper_password";
               "zyte_api_url"; "zyte_api_key_wokelo"]%string) /\
  init = {| oxylabs_username := Some "oxylabs_scraper_username"%string;
            oxylabs_password := Some "oxylabs_scraper_password+b"%string;
            zyte_api_url := Some "zyte_api_url"%string;
            zyte_api_key := Some "zyte_api_key_wokelo"%string |}.
Proof.
  split; [|reflexivity].
  intros key. unfold get_constant. apply assoc_None.
Qed.

Section FetcherFacts.

Variable C : collaborators.

(** When the cleaning of a reply gives markup. *)
Lemma remove_overlays_some (o : option text) (m : text) :
  swallow (remove_overlays_and_clean_content C o) = Some m <->
  (o = Some [] /\ m = []) \/
  (exists (c : ascii) (h : text) (s d : node),
     o = Some (c :: h) /\ parse C (c :: h) = Ok s /\
     Noise.strip_noise s = Ok d /\ render C d = Ok m).
Proof.
  destruct o as [[|c h]|].
  - split.
    + intros H. inversion H. left. split; reflexivity.
    + intros [[_ H] | (c & h & s & d & H & _)]; [subst m; reflexivity|].
      discriminate H.
  - rewrite remove_overlays_cons. split.
    + intros H. right.
      destruct (parse C (c :: h)) as [s|e] eqn:Hp; [|discriminate H].
      rewrite bind_Ok in H.
      destruct (Noise.strip_noise s) as [d|e] eqn:Hs; [|discriminate H].
      rewrite bind_Ok in H.
      destruct (render C d) as [m'|e] eqn:Hd; [|discriminate H].
      inversion H; subst m'.
      exists c, h, s, d.
      split; [reflexivity|]. split; [exact Hp|]. split; [exact Hs | exact Hd].
    + intros [[H _] | (c' & h' & s & d & H & Hp & Hs & Hd)];
        [discriminate H|].
      inversion H; subst c' h'. rewrite Hp, bind_Ok, Hs, bind_Ok, Hd.
      reflexivity.
  - split; [discriminate|].
    intros [[H _] | (c & h & s & d & H & _)]; discriminate H.
Qed.

(** X23.  When a fetcher answers markup.  The Zyte fetcher answers the
    markup [m] exactly when its request returned markup and either that
    markup is empty, and so is [m], or the parser, the Noise Stripper
    and the printer all returned on it and [m] is what was printed.  In
    every other case it answers [None]: so when the parser raises and
    when the printer raises.  The same holds of the Oxylabs fetcher,
    whose request is made for the url with its scheme and must come back
    with the status 200.  A request type other than [get] and [post]
    gives [None]. *)
Theorem fetcher_answers (url : string) :
  (forall m : text,
     f_zyte_proxy C url "get" = Some m <->
     (zyte_browser_html C url = Ok (Some []) /\ m = []) \/
     (exists (c : ascii) (h : text) (s d : node),
        zyte_browser_html C url = Ok (Some (c :: h)) /\
        parse C (c :: h) = Ok s /\
        Noise.strip_noise s = Ok d /\ render C d = Ok m)) /\
  (forall c h e,
     zyte_browser_html C url = Ok (Some (c :: h)) ->
     parse C (c :: h) = Raise e ->
     f_zyte_proxy C url "get" = None) /\
  (forall c h s d e,
     zyte_browser_html C url = Ok (Some (c :: h)) ->
     parse C (c :: h) = Ok s -> Noise.strip_noise s = Ok d ->
     render C d = Raise e ->
     f_zyte_proxy C url "get" = None) /\
  (forall m : text,
     f_oxylabs_proxy C url = Some m <->
     (oxylabs_query C (with_scheme url) = Ok (200, Ok (Some [])) /\ m = []) \/
     (exists (c : ascii) (h : text) (s d : node),
        oxylabs_query C (with_scheme url) = Ok (200, Ok (Some (c :: h))) /\
        parse C (c :: h) = Ok s /\
        Noise.strip_noise s = Ok d /\ render C d = Ok m)) /\
  (forall c h e,
     oxylabs_query C (with_scheme url) = Ok (200, Ok (Some (c :: h))) ->
     parse C (c :: h) = Raise e ->
     f_oxylabs_proxy C url = None) /\
  (forall c h s d e,
     oxylabs_query C (with_scheme url) = Ok (200, Ok (Some (c :: h))) ->
     parse C (c :: h) = Ok s -> Noise.strip_noise s = Ok d ->
     render C d = Raise e ->
     f_oxylabs_proxy C url = None) /\
  (forall req_type, req_type <> "get"%string -> req_type <> "post"%string ->
     f_zyte_proxy C url req_type = None).
Proof.
  assert (Z : f_zyte_proxy C url "get" =
              swallow (html_content <- zyte_browser_html C url ;;
                       remove_overlays_and_clean_content C html_content))
    by reflexivity.
  assert (O : f_oxylabs_proxy C url =
              swallow
                (reply <- oxylabs_query C (with_scheme url) ;;
                 let '(status_code, content) := reply in
                 if negb (status_code =? 200) then Ok None
                 else c <- content ;;
                      remove_overlays_and_clean_content C c))
    by reflexivity.
  split; [|split; [|split; [|split; [|split; [|split]]]]].
  - intros m. rewrite Z.
    destruct (zyte_browser_html C url) as [o|e]; cbn [bind].
    + rewrite remove_overlays_some. split.
      * intros [[H1 H2] | (c & h & s & d & H & R)].
        -- left. subst o. split; [reflexivity | exact H2].
        -- right. subst o. exists c, h, s, d. split; [reflexivity | exact R].
      * intros [[H1 H2] | (c & h & s & d & H & R)].
        -- left. inversion H1. split; [reflexivity | exact H2].
        -- right. inversion H. exists c, h, s, d.
           split; [reflexivity | exact R].
    + cbn [swallow]. split; [discriminate|].
      intros [[H _] | (c & h & s & d & H & _)]; discriminate H.
  - intros c h e Hz Hp. rewrite Z, Hz. cbn [bind].
    rewrite remove_overlays_cons, Hp. reflexivity.
  - intros c h s d e Hz Hp Hs Hd. rewrite Z, Hz. cbn [bind].
    rewrite remove_overlays_cons, Hp. cbn [bind]. rewrite Hs. cbn [bind].
    rewrite Hd. reflexivity.
  - intros m. rewrite O.
    destruct (oxylabs_query C (with_scheme url)) as [[st content]|e];
      cbn [bind].
    + destruct (st =? 200) eqn:Est; cbn [negb].
      * apply Nat.eqb_eq in Est. subst st.
        destruct content as [o|e]; cbn [bind].
        -- rewrite remove_overlays_some. split.
           ++ intros [[H1 H2] | (c & h & s & d & H & R)].
              ** left. subst o. split; [reflexivity | exact H2].
              ** right. subst o. exists c, h, s, d.
                 split; [reflexivity | exact R].
           ++ intros [[H1 H2] | (c & h & s & d & H & R)].
              ** left. inversion H1. split; [reflexivity | exact H2].
              ** right. inversion H. exists c, h, s, d.
                 split; [reflexivity | exact R].
        -- cbn [swallow]. split; [discriminate|].
           intros [[H _] | (c & h & s & d & H & _)]; discriminate H.
      * apply Nat.eqb_neq in Est. cbn [swallow]. split; [discriminate|].
        intros [[H _] | (c & h & s & d & H & _)]; inversion H; congruence.
    + cbn [swallow]. split; [discriminate|].
      intros [[H _] | (c & h & s & d & H & _)]; discriminate H.
  - intros c h e Hz Hp. rewrite O, Hz. cbn [bind Nat.eqb negb].
    rewrite remove_overlays_cons, Hp. reflexivity.
  - intros c h s d e Hz Hp Hs Hd. rewrite O, Hz. cbn [bind Nat.eqb negb].
    rewrite remove_overlays_cons, Hp. cbn [bind]. rewrite Hs. cbn [bind].
    rewrite Hd. reflexivity.
  - intros rt H1 H2. unfold f_zyte_proxy.
    apply String.eqb_neq in H1, H2. rewrite H1, H2. reflexivity.
Qed.

(** X9.  An exception of the Noise Stripper inside a fetcher is reported as a
    missing reply: the record is "No response from proxy". *)
Theorem noise_failure_in_fetcher (url language : string) (c : ascii)
    (h : text) (s : node) (e : string) :
  zyte_browser_html C url = Ok (Some (c :: h)) ->
  parse C (c :: h) = Ok s ->
  Noise.strip_noise s = Raise e ->
  f_zyte_proxy C url "get" = None /\
  extract_article C url "zyte" language = Failure url "No response from proxy".
Proof.
  intros H Hp He.
  assert (E : f_zyte_proxy C url "get" = None).
  { unfold f_zyte_proxy. cbn [String.eqb Ascii.eqb Bool.eqb]. rewrite H.
    cbn [bind]. rewrite remove_overlays_cons, Hp. cbn [bind]. rewrite He.
    reflexivity. }
  split; [exact E|].
  unfold extract_article, extract_body, fetch.
  cbn [String.eqb Ascii.eqb Bool.eqb]. rewrite E. reflexivity.
Qed.


(** X25.  A successful record repeats the url and names the provider, which
    is one of the two; its text is trimmed and its authors are
    distinct. *)
Theorem success_record (url use_proxy language u : string)
    (ti : option text) (tx : text) (au : list text) (da : option text)
    (me : string) :
  extract_article C url use_proxy language = Success u ti tx au da me ->
  u = url /\ me = use_proxy /\
  (use_proxy = "oxylabs"%string \/ use_proxy = "zyte"%string) /\
  strip tx = tx /\ NoDup au.
Proof.
  intros H. apply extract_article_success_inv in H.
  destruct H as (r & html & d0 & d1 & found & flag & full & Hf & _ & _ & _ & _
                 & _ & _ & _ & Hu & Hm & Htx & _ & _ & Hau & _).
  split; [exact Hu|]. split; [exact Hm|].
  split.
  { unfold fetch in Hf.
    destruct (String.eqb use_proxy "oxylabs") eqn:E1;
      [left; apply String.eqb_eq, E1|].
    destruct (String.eqb use_proxy "zyte") eqn:E2;
      [right; apply String.eqb_eq, E2 | discriminate Hf]. }
  split; [rewrite Htx; apply clean_text_stripped|].
  rewrite Hau. unfold Meta.recover_authors. rewrite authors_loop_firsts.
  apply firsts_NoDup.
Qed.

End FetcherFacts.

(** ** More on the walk and on the three passes *)

Lemma decompose_all_cons (x : path) (l : list path) (d : node) :
  Noise.decompose_all (x :: l) d = Noise.decompose_all l (decompose x d).
Proof. reflexivity. Qed.

(** X10.  The walk of lines 238-241 destroys the references that
    [walk_deleted] lists and nothing else, and the text-pattern pass
    destroys only [button], [a], [div] and [section] elements: whatever
    is there before a walk, or before the pass, and gone after it is
    such an element or lies in one. *)
Theorem walk_deletes_listed_tags :
  (forall (rp : list nat) (d : node),
     Noise.walk_up rp d = Noise.decompose_all (walk_deleted rp d) d) /\
  (forall (rp : list nat) (d : node) (a : path) (n : node),
     get a d = Some n -> get a (Noise.walk_up rp d) = None ->
     exists (b : path) (nb : node),
       above b a /\ get b d = Some nb /\ In (name nb) Noise.walk_tags) /\
  (forall (pats : list string) (d d' : node) (a : path) (n : node),
     Noise.text_pass pats d = Ok d' ->
     get a d = Some n -> get a d' = None ->
     exists (b : path) (nb : node),
       above b a /\ get b d = Some nb /\ In (name nb) Noise.walk_tags).
Proof.
  split; [|split].
  - induction rp as [|i rp IH]; intros d; cbn [Noise.walk_up walk_deleted].
    + destruct (get (rev []) d); [|reflexivity].
      destruct (Noise.walk_cond _ n); reflexivity.
    + destruct (get (rev (i :: rp)) d); [|reflexivity].
      destruct (Noise.walk_cond _ n); [|reflexivity].
      rewrite decompose_all_cons. apply IH.
  - intros rp d a n. apply walk_up_removes.
  - intros pats d d' a n. apply text_pass_removes.
Qed.

Lemma walk_deletes_listed_tags_witness :
  exists (b : path) (nb : node),
    above b [1; 0] /\ get b doc_button = Some nb /\
    In (name nb) Noise.walk_tags.
Proof.
  apply (proj2 (proj2 walk_deletes_listed_tags)
           (tl Noise.text_patterns) doc_button
           (soup [Elem "p" [] [Text "Story."]; Gone]) [1; 0]
           (Text "Read More")).
  - vm_compute. reflexivity.
  - reflexivity.
  - reflexivity.
Defined.

Lemma decompose_keeps_root (p : path) (t : string)
    (a : list (string * string)) (ks : list node) :
  p <> [] ->
  exists ks', decompose p (Elem t a ks) = Elem t a ks'.
Proof.
  destruct p as [|i p]; [congruence|]. intros _. cbn [decompose].
  eexists. reflexivity.
Qed.

Lemma decompose_all_keeps_root (ps : list path) (t : string)
    (a : list (string * string)) :
  Forall (fun p => p <> []) ps ->
  forall ks, exists ks', Noise.decompose_all ps (Elem t a ks) = Elem t a ks'.
Proof.
  unfold Noise.decompose_all.
  induction 1 as [|p ps Hp Hps IH]; intros ks; cbn [fold_left].
  - eexists. reflexivity.
  - destruct (decompose_keeps_root p t a ks Hp) as [ks1 E]. rewrite E.
    apply IH.
Qed.

Lemma find_all_below (pred : node -> bool) (d : node) :
  Forall (fun p => p <> []) (find_all pred [] d).
Proof.
  apply Forall_forall. intros p H. apply find_all_In in H.
  destruct H as (r & n & E & Hr & _). cbn [app] in E. congruence.
Qed.

Lemma strip_by_keeps_root (pred : string -> node -> bool)
    (pats : list string) (t : string) (a : list (string * string)) :
  forall ks, exists ks', Noise.strip_by pred pats (Elem t a ks) = Elem t a ks'.
Proof.
  unfold Noise.strip_by.
  induction pats as [|pat pats IH]; intros ks; cbn [fold_left].
  - eexists. reflexivity.
  - destruct (decompose_all_keeps_root
                (find_all (pred pat) [] (Elem t a ks)) t a
                (find_all_below (pred pat) (Elem t a ks)) ks) as [ks1 E].
    fold (Noise.decompose_all (find_all (pred pat) [] (Elem t a ks))
            (Elem t a ks)).
    rewrite E. apply IH.
Qed.

Lemma walk_up_keeps_root (rp : list nat) (t : string)
    (a : list (string * string)) :
  existsb (String.eqb t) Noise.walk_tags = false ->
  forall ks, exists ks', Noise.walk_up rp (Elem t a ks) = Elem t a ks'.
Proof.
  intros Ht. induction rp as [|i rp IH]; intros ks.
  - cbn [Noise.walk_up rev get]. unfold Noise.walk_cond. cbn [name].
    rewrite Ht. cbn [andb]. eexists. reflexivity.
  - cbn [Noise.walk_up].
    destruct (get (rev (i :: rp)) (Elem t a ks)); [|eexists; reflexivity].
    destruct (Noise.walk_cond _ n); [|eexists; reflexivity].
    assert (Hp : rev (i :: rp) <> []).
    { cbn [rev]. intros E. apply app_eq_nil in E. destruct E as [_ E].
      discriminate E. }
    destruct (decompose_keeps_root _ t a ks Hp) as [ks1 E]. rewrite E.
    apply IH.
Qed.

Lemma walk_elements_keeps_root (els : list path) (t : string)
    (a : list (string * string)) :
  existsb (String.eqb t) Noise.walk_tags = false ->
  forall ks d',
    Noise.walk_elements els (Elem t a ks) = Ok d' ->
    exists ks', d' = Elem t a ks'.
Proof.
  intros Ht. induction els as [|e els IH]; intros ks d' H.
  - cbn in H. inversion H. eexists. reflexivity.
  - cbn [Noise.walk_elements] in H.
    destruct (get e (Elem t a ks)); [|discriminate H].
    destruct (walk_up_keeps_root (rev (parent e)) t a Ht ks) as [ks1 E].
    rewrite E in H. apply (IH _ _ H).
Qed.

Lemma text_pass_keeps_root (pats : list string) (t : string)
    (a : list (string * string)) :
  existsb (String.eqb t) Noise.walk_tags = false ->
  forall ks d',
    Noise.text_pass pats (Elem t a ks) = Ok d' ->
    exists ks', d' = Elem t a ks'.
Proof.
  intros Ht. induction pats as [|pat pats IH]; intros ks d' H.
  - cbn in H. inversion H. eexists. reflexivity.
  - cbn [Noise.text_pass] in H.
    destruct (Noise.walk_elements
                (find_all (Noise.text_matches pat) [] (Elem t a ks))
                (Elem t a ks)) as [d1|e] eqn:E; [|discriminate H].
    cbn [bind] in H.
    destruct (walk_elements_keeps_root _ t a Ht ks d1 E) as [ks1 E1].
    subst d1. apply (IH _ _ H).
Qed.

(** X11.  The Noise Stripper never deletes the document itself: what it
    returns for a soup is a soup. *)
Theorem strip_noise_keeps_soup (kids : list node) (d' : node) :
  Noise.strip_noise (soup kids) = Ok d' ->
  exists kids' : list node, d' = soup kids'.
Proof.
  rewrite strip_noise_eq. unfold soup. intros H.
  destruct (strip_by_keeps_root Noise.id_matches Noise.ids soup_tag [] kids)
    as [k1 E1].
  rewrite E1 in H.
  destruct (strip_by_keeps_root Noise.class_matches Noise.class_patterns
              soup_tag [] k1) as [k2 E2].
  rewrite E2 in H.
  apply (text_pass_keeps_root Noise.text_patterns soup_tag [] eq_refl k2 d' H).
Qed.

Lemma strip_noise_keeps_soup_witness :
  exists kids' : list node,
    soup [Elem "p" [] [Text "Story."]; Gone] = soup kids'.
Proof.
  apply (strip_noise_keeps_soup
           [Elem "p" [] [Text "Story."]; Elem "button" [] [Text "Read More"]]).
  vm_compute. reflexivity.
Defined.

(** ** More on the locator and on the final text *)

(** X16.  [found_content] is set exactly when [full_content] is not empty. *)
Theorem locate_flag (d : node) :
  found_of (Locator.locate d) = true <-> blocks_of (Locator.locate d) <> [].
Proof.
  unfold Locator.locate. rewrite cascade_found.
  destruct (blocks_of _); cbn; split; congruence.
Qed.

Lemma strip_noise_nothing_to_do_witness :
  Noise.strip_noise doc_main = Ok doc_main.
Proof.
  apply (strip_noise_nothing_to_do doc_main);
    intros pat p n Hin Hp Hg.
  - refine (proj1 (find_all_nil (Noise.id_matches pat) [] doc_main) _ p n Hp Hg).
    cbn in Hin.
    repeat (destruct Hin as [Hin|Hin]; [subst pat; reflexivity|]).
    destruct Hin.
  - refine (proj1 (find_all_nil (Noise.class_matches pat) [] doc_main) _
              p n Hp Hg).
    cbn in Hin.
    repeat (destruct Hin as [Hin|Hin]; [subst pat; reflexivity|]).
    destruct Hin.
  - refine (proj1 (find_all_nil (Noise.text_matches pat) [] doc_main) _
              p n Hp Hg).
    cbn in Hin.
    repeat (destruct Hin as [Hin|Hin]; [subst pat; vm_compute; reflexivity|]).
    destruct Hin.
Defined.

Lemma fetcher_answers_witness :
  f_zyte_proxy (fixed doc_main (T "<html>") (Ok [])) "u" "get"
  = Some (T "<html>") /\
  f_zyte_proxy
    (with_parser (fixed doc_main (T "<html>") (Ok []))
       (fun _ => Raise "bad markup"%string)) "u" "get"
  = None /\
  f_zyte_proxy
    (with_printer (fixed doc_main (T "<html>") (Ok []))
       (fun _ => Raise "too deep"%string)) "u" "get"
  = None /\
  f_zyte_proxy (fixed doc_main (T "<html>") (Ok [])) "u" "put" = None.
Proof.
  split; [|split; [|split]].
  - apply (proj1 (fetcher_answers (fixed doc_main (T "<html>") (Ok [])) "u")
             (T "<html>")).
    right. exists "<"%char, (T "html>"), doc_main, doc_main.
    split; [reflexivity|]. split; [reflexivity|].
    split; [vm_compute; reflexivity | reflexivity].
  - apply (proj1 (proj2
             (fetcher_answers
                (with_parser (fixed doc_main (T "<html>") (Ok []))
                   (fun _ => Raise "bad markup"%string)) "u"))
             "<"%char (T "html>") "bad markup"%string); reflexivity.
  - apply (proj1 (proj2 (proj2
             (fetcher_answers
                (with_printer (fixed doc_main (T "<html>") (Ok []))
                   (fun _ => Raise "too deep"%string)) "u")))
             "<"%char (T "html>") doc_main doc_main "too deep"%string);
      vm_compute; reflexivity.
  - apply (proj2 (proj2 (proj2 (proj2 (proj2 (proj2
             (fetcher_answers (fixed doc_main (T "<html>") (Ok [])) "u")))))));
      discriminate.
Defined.

Lemma noise_failure_in_fetcher_witness :
  extract_article (fixed doc_two_links (T "<html>") (Ok [])) "u" "zyte" "en"
  = Failure "u" "No response from proxy".
Proof.
  apply (proj2 (noise_failure_in_fetcher
                  (fixed doc_two_links (T "<html>") (Ok [])) "u" "en"
                  "<"%char (T "html>") doc_two_links Noise.attribute_error
                  eq_refl eq_refl eq_refl)).
Defined.


Lemma success_record_witness :
  "u"%string = "u"%string /\ "zyte"%string = "zyte"%string /\
  ("zyte"%string = "oxylabs"%string \/ "zyte"%string = "zyte"%string) /\
  strip (T prose) = T prose /\ NoDup (@nil text).
Proof.
  apply (success_record (fixed doc_main (T "<html>") (Ok []))
           "u" "zyte" "en" "u" (Some (T "Title Text")) (T prose) [] None
           "zyte").
  vm_compute. reflexivity.
Defined.
